(* ===== verification/_CoqProject ===== *)
-Q . S2P
Prelude.v
ListSpec.v
Memory.v
LinkedList.v
Lifetime.v
ListProps.v
Stack.v
Interface.v
Demo.v
