(* ===== verification/Prelude.v ===== *)
(** * Verification of Data-Structures-303: a singly linked list and a vector stack

    The repository ([src/main.h], [src/main.cpp]) has three parts:
    - [Linked_List] (declared in main.h lines 8-69, defined in main.cpp
      lines 11-168): a singly linked list of [int] whose nodes live on the
      C++ heap, created by [new Node(val)] and released by [delete]; the
      object holds [head], [tail] and the [size_t] counter [num_items].
    - [mainStack] (main.h lines 77-99, main.cpp lines 175-220): a stack
      over a [std::vector<int>], with [push], [pop] (which prints a
      warning on an empty stack), [top] (which throws on an empty stack),
      [average] (an [int] sum converted to [double] and divided by the
      size) and [display].
    - [main] (main.cpp lines 227-301): a fixed demonstration that drives
      both objects and writes a transcript to [cout].
    The list and the stack do not call each other; [main] is the only
    client of both.  The list interacts with the heap allocator through
    [new] and [delete].

    ** Files and what they model
    - [Prelude] (this file): the outcome monad [outcome] that every
      operation returns into ([Ret] a value, [Throw] a [runtime_error]
      message, or [Undef] for undefined behaviour: a null or dangling
      dereference, a double [delete], signed overflow, or a loop that
      does not end within its bound); C++ integer widths ([int] as a
      32-bit [Z] with overflow as [Undef], [size_t] as a [Z] modulo
      [2^64]); the output stream [cout] as a list of [out_item]; the
      hint databases, tactics and list lemmas shared by the other files.
    - [ListSpec]: the abstract contract of the list, as pure functions on
      [list Z]: push and pop at both ends, clamped [insert], checked
      [remove], [index_of] with the length as the not-found sentinel, and
      [front]/[back] throwing on an empty list.
    - [Memory]: the heap as a [gmap] from locations to [Node] records
      (the struct of main.h lines 11-17); [new] through the allocator
      interface [Allocator] (a class whose one law is that [new] returns
      a location that is not allocated), [delete], and loads and stores
      through pointers, with [Undef] on null or dangling pointers.  It
      also holds the list-segment predicate [lseg], which relates a chain
      of [next] pointers to a list of cells, and the frame condition
      [heap_frame], which says which locations an operation may allocate,
      free or leave alone.
    - [LinkedList] (Module [Linked_List]): every member function, written
      statement by statement against the heap of [Memory] (the object as
      the record [LL]; [push_front], [push_back], [pop_front], [pop_back]
      with its walk [walk_to_pred], [insert] and [remove] with their walk
      [advance], [front], [back], [empty], [size], [find], [print_list],
      the constructor and the destructor).  The representation invariant
      [repr] says four things: the chain from [head] spells the cells;
      [tail] is the last cell; [num_items] is the length; the cells are
      distinct.
    - [ListProps] (Module [ListProps]): reference traversals
      ([count_nodes], [last_node], [back_walk]) that compute from the
      chain what the cached fields [num_items] and [tail], and [back()],
      stand for.
    - [Lifetime] (Module [Lifetime]): a client's view of one object.
      It holds sequences of calls ([list_call], [exec_calls]) with their
      contract ([spec_calls]), and the lifetime as a state machine: states
      [Alive], [Destroyed] and [Crashed] (undefined behaviour), the step
      relation [lstep] and [reachable].  It also holds the copy
      constructor [Linked_List_copy] and the copy assignment
      [Linked_List_assign] that the compiler declares implicitly.
    - [Stack] (Modules [StackSpec] and [mainStack]): the abstract LIFO
      contract with the top first, including what [display] shows and
      what [average] computes, then the object as a record over the
      vector's contents, one definition per member function; [accumulate]
      is [std::accumulate] over [int].
    - [Interface]: the public sections of the two classes (main.h lines
      23-68 and 81-98) as type classes, [ListInterface] and
      [StackInterface].  Each has a contract, [ListContract] and
      [StackContract], relative to [ListSpec] and [StackSpec].  Instances
      for the classes of main.cpp discharge the contracts, the list's for
      any [Allocator].
    - [Demo] (Module [Demo]): [main] statement by statement in a state
      and exception monad [M] over a [World] (storage, [list], [s],
      [cout]).  It calls [list] only through [ListInterface] and [s] only
      through [StackInterface], and ends with the destructor of [list].

    ** What the theorems show
    - Refinement (LinkedList, Lifetime): on a heap that represents the cells
      [cs], each mutating list operation returns (no [Undef], enough
      fuel).  The new state represents exactly the cells that the
      [ListSpec] function, applied to the cells themselves, prescribes
      ([refines_cells]: [insert] links the cell [(new, v)] at the position
      [ListSpec.insert] gives, and every other node keeps its location),
      and the heap changed only on the cells the operation allocated or
      released.  Projected to the payloads ([refines]) this is the
      contract of [ListSpec], and it holds for any sequence of calls, by
      induction on the sequence.  The observers
      ([front], [back], [find], [print_list]) agree with the contract,
      and [front]/[back] throw on an empty list.
    - Memory safety and termination: the destructor releases exactly
      the list's nodes, and its loop runs exactly one iteration per node;
      the loop of [find] runs one iteration per node up to the first
      match.  After any
      sequence of calls from an empty list, the allocated nodes are
      exactly the list's cells, and after the destructor the heap is
      empty (no leak, no double free).
    - Lifetime (rule induction on [lstep]): no reachable state is
      [Crashed].  Every live state satisfies the type invariant
      ([num_items] a [size_t], every node an [int]).  In every live state
      each well-typed call itself returns and leads to a reachable live
      state, and the destructor leaves an empty heap.  Copying a non-empty list is a double free, and
      assigning leaks the target's nodes.
    - The shape invariant: [head], [tail] and [num_items] are null or zero
      together, and [tail] is reached from [head] in [num_items - 1]
      steps.  In every reachable state the cached [num_items] and [tail]
      equal what a traversal computes, and [back()] returns what a walk
      to the last node reads ([ListProps]).
    - Round trips: [pop_back] after [push_back v], [pop_front] after
      [push_front v], and [remove i] after [insert i v] for
      [0 <= i <= size()] give back the very same heap and object.  The
      last one composes the cell-level results: the cells come back, and
      a heap and an object representing given cells, with the rest of
      the heap untouched, are unique ([repr_unique]).
    - Stack: the refinement of the abstract LIFO contract by every member
      function ([display] and [average] included), the LIFO laws,
      the diagnostic of [pop] and the exception of
      [top] on an empty stack, [accumulate] equal to the exact sum
      exactly when no partial sum overflows [int], the value of
      [average] (undefined exactly when a partial sum overflows), and the
      output of [display].
    - [main]: its list part is proved against [ListContract] alone
      ([Demo.main_list_part_contract]) and its stack part against
      [StackContract] alone ([Demo.main_stack_part_contract]), and the
      two compose ([Demo.main_contract]): with any implementations
      meeting the contracts, the whole of [main] ([run_main]) runs to its
      end without an exception or undefined behaviour and writes exactly
      [list_transcript ++ stack_transcript]; [Demo.main] is [run_main]
      with the classes of main.cpp.

    ** Bounds and fuel
    [num_items] is a [size_t]: the model wraps it modulo [2^64], and the
    refinement theorems for the operations that increment it assume that
    the list holds fewer than [SIZE_MAX] elements (a real machine cannot
    hold [2^64] nodes).  The [while] loops (destructor, [pop_back],
    [find], [print_list]) get as fuel the number of allocated nodes.
    This is enough ([lseg_length_le]): each iteration visits a distinct
    node of an acyclic chain.  The [for] loops of [insert] and [remove]
    run for their count.  Payloads are [int]s; the list never computes
    with them, the stack's [average] adds them in [int] and the model
    makes a sum outside [[INT_MIN, INT_MAX]] undefined.

    ** Findings
    [Linked_List] has a destructor but no copy constructor or copy
    assignment (the rule of three), so a copy shares, and later
    double-frees, the nodes ([Lifetime.copy_double_free]), and an
    assignment leaks the target's nodes ([Lifetime.assign_leaks]).  [average]
    overflows in [int] on inputs whose mean is representable
    ([mainStack.average_spec]; the stack [[INT_MAX; 1]] is one).  The
    specification's wording that
    [count] steps from [head] reach [tail] is off by one ([repr_shape]).

    ** Not modelled
    The text formatting of [cout] (an [int] is an [OInt] item, not its
    decimal digits; a [double] is an [ODouble] item).  [std::bad_alloc]
    when [new] fails: allocation is assumed to succeed.  The capacity of
    the vector, which [mainStack]'s interface does not expose. *)

From Stdlib Require Export ZArith PrimFloat Uint63.
From stdpp Require Export base gmap list strings.

Declare Scope cxx_scope.
Delimit Scope cxx_scope with cxx.

(** ** The outcome of a C++ call *)

(** [Ret] a value; [Throw] a [std::runtime_error] with its message;
    [Undef] undefined behaviour (or a loop that exceeds its bound). *)
Inductive outcome (A : Type) : Type :=
| Ret (a : A)
| Throw (msg : string)
| Undef.
Arguments Ret {A} a.
Arguments Throw {A} msg.
Arguments Undef {A}.

#[global] Instance outcome_ret : MRet outcome := λ A a, Ret a.
#[global] Instance outcome_bind : MBind outcome :=
  λ A B f m, match m with Ret a => f a | Throw s => Throw s | Undef => Undef end.

(** A heap access that finds nothing is undefined behaviour. *)
Definition of_option {A} (o : option A) : outcome A :=
  match o with Some a => Ret a | None => Undef end.

(** ** C++ integer widths *)

Definition INT_MIN : Z := - 2 ^ 31.
Definition INT_MAX : Z := 2 ^ 31 - 1.
Definition SIZE_MAX : Z := 2 ^ 64 - 1.

(** An [int] value. *)
Definition is_int (z : Z) : Prop := (INT_MIN ≤ z ≤ INT_MAX)%Z.
#[global] Instance is_int_dec z : Decision (is_int z) := _.

(** A [size_t] value. *)
Definition is_size (z : Z) : Prop := (0 ≤ z ≤ SIZE_MAX)%Z.
#[global] Instance is_size_dec z : Decision (is_size z) := _.

(** [size_t] arithmetic is modulo [2^64]. *)
Definition size_wrap (z : Z) : Z := z mod 2 ^ 64.
Definition size_inc (n : Z) : Z := size_wrap (n + 1).
Definition size_dec (n : Z) : Z := size_wrap (n - 1).

(** Signed [int] addition: overflow is undefined behaviour. *)
Definition int_add (a b : Z) : outcome Z :=
  if decide (is_int (a + b)) then Ret (a + b)%Z else Undef.

(** [static_cast<double>] of an integer that fits in 63 bits. *)
Definition double_of_Z (z : Z) : float :=
  if (z <? 0)%Z then PrimFloat.opp (PrimFloat.of_uint63 (Uint63.of_Z (- z)))
  else PrimFloat.of_uint63 (Uint63.of_Z z).

(** ** The output stream [cout] *)

Inductive out_item : Type :=
| OStr (s : string)
| OInt (z : Z)
| OSize (n : Z)
| ODouble (d : float)
| OEndl.

Abbreviation ostream := (list out_item).

(** The character ['\n'] as a string. *)
Definition newline : string := String (Ascii.ascii_of_nat 10) EmptyString.

(** ** Automation *)

Create HintDb cxx discriminated.
Create Rewrite HintDb cxx_rw.

(** Close a decidable goal about concrete data by evaluation. *)
Ltac decide_concrete := apply (bool_decide_unpack _); vm_compute; exact I.

(** ** Generic lemmas *)

Lemma bind_Ret {A B} (a : A) (f : A → outcome B) : (Ret a ≫= f) = f a.
Proof. reflexivity. Qed.

Lemma bind_Ret_inv {A B} (m : outcome A) (f : A → outcome B) b :
  (m ≫= f) = Ret b → ∃ a, m = Ret a ∧ f a = Ret b.
Proof. destruct m; simpl; [eauto | discriminate..]. Qed.

Lemma of_option_Some {A} (a : A) : of_option (Some a) = Ret a.
Proof. reflexivity. Qed.

#[export] Hint Rewrite @bind_Ret @of_option_Some : cxx_rw.

Lemma size_inc_small n : (0 ≤ n < SIZE_MAX)%Z → size_inc n = (n + 1)%Z.
Proof. unfold size_inc, size_wrap, SIZE_MAX. intros. apply Z.mod_small. lia. Qed.

Lemma size_dec_small n : (0 < n ≤ SIZE_MAX)%Z → size_dec n = (n - 1)%Z.
Proof. unfold size_dec, size_wrap, SIZE_MAX. intros. apply Z.mod_small. lia. Qed.

Lemma size_dec_inc n : (0 ≤ n < SIZE_MAX)%Z → size_dec (size_inc n) = n.
Proof. intros. rewrite size_inc_small, size_dec_small by (unfold SIZE_MAX in *; lia). lia. Qed.

Lemma size_wrap_bound z : is_size (size_wrap z).
Proof.
  unfold is_size, size_wrap, SIZE_MAX.
  pose proof (Z.mod_pos_bound z (2 ^ 64)). lia.
Qed.

Lemma int_add_ok a b : is_int (a + b) → int_add a b = Ret (a + b)%Z.
Proof. intros H. unfold int_add. by rewrite decide_True. Qed.

Lemma int_add_overflow a b : ¬ is_int (a + b) → int_add a b = Undef.
Proof. intros H. unfold int_add. by rewrite decide_False. Qed.

(** Cut a list at position [k]. *)
Lemma list_split_at {A} (xs : list A) k :
  k < length xs → ∃ xs1 x xs2, xs = xs1 ++ x :: xs2 ∧ length xs1 = k.
Proof.
  intros Hk. destruct (lookup_lt_is_Some_2 xs k Hk) as [x Hx].
  destruct (list_elem_of_split_length xs k x Hx) as (xs1 & xs2 & -> & ->). eauto.
Qed.

(** A list of two or more elements ends with two of them. *)
Lemma list_last_two {A} (xs : list A) :
  2 ≤ length xs → ∃ xs0 a b, xs = (xs0 ++ [a]) ++ [b].
Proof.
  intros Hlen. destruct xs as [|x1 xs] using rev_ind; [simpl in Hlen; lia|].
  destruct xs as [|x0 xs] using rev_ind; [simpl in Hlen; lia|]. eauto.
Qed.

Lemma Forall_removelast {A} (P : A → Prop) xs : Forall P xs → Forall P (removelast xs).
Proof.
  destruct xs as [|x xs _] using rev_ind; [done|].
  rewrite removelast_last. by intros [? _]%Forall_app.
Qed.

Lemma fmap_removelast {A B} (f : A → B) xs : f <$> removelast xs = removelast (f <$> xs).
Proof.
  destruct xs as [|x xs _] using rev_ind; [done|].
  rewrite removelast_last, fmap_app. simpl. by rewrite removelast_last.
Qed.

Lemma NoDup_snoc_notin {A} (xs : list A) x : NoDup (xs ++ [x]) → x ∉ xs.
Proof. intros Hnd ?. apply NoDup_app in Hnd as (_ & Hdis & _). by apply (Hdis x); [|left]. Qed.

(** What a duplicate-free list cut around [a] says about its parts. *)
Lemma NoDup_mid {A} (xs1 xs2 : list A) a :
  NoDup (xs1 ++ a :: xs2) →
  a ∉ xs1 ∧ a ∉ xs2 ∧ NoDup xs1 ∧ NoDup xs2 ∧ (∀ x, x ∈ xs1 → x ∉ xs2).
Proof.
  intros Hnd. apply NoDup_app in Hnd as (Hnd1 & Hdis & Hnd2). apply NoDup_cons in Hnd2 as [Ha Hnd2].
  split_and!; [intros ?; by apply (Hdis a); [|left] | done..|].
  intros x ? ?. apply (Hdis x); [done | by right].
Qed.
