(* ===== verification/ListSpec.v ===== *)
(** The abstract contract of [Linked_List]: what each operation does to
    the sequence it holds, as pure functions on lists (the mutators for
    any element type: the refinement theorems apply them to the cells,
    location and payload, and to the payloads alone).  These are the
    specification side of the refinement theorems of [LinkedList]; they are
    written from the specification (push and pop at both ends, clamped
    [insert], checked [remove], [find] returning the size when the value is
    absent, [front]/[back] failing on an empty list), not from the code. *)

From S2P Require Import Prelude.

Module ListSpec.

Definition push_front {A} (x : A) (xs : list A) : list A := x :: xs.

Definition push_back {A} (x : A) (xs : list A) : list A := xs ++ [x].

(** Removing from an empty list leaves it empty. *)
Definition pop_front {A} (xs : list A) : list A := tail xs.

Definition pop_back {A} (xs : list A) : list A := removelast xs.

Definition front (xs : list Z) : outcome Z :=
  match xs with [] => Throw "List is empty" | x :: _ => Ret x end.

Definition back (xs : list Z) : outcome Z :=
  match last xs with None => Throw "List is empty" | Some x => Ret x end.

(** [insert] is clamped: a position at or past the end appends.  It and
    [remove] are stated for any element type, so that they also describe
    the list's cells. *)
Definition insert {A} (i : Z) (x : A) (xs : list A) : list A :=
  if decide (Z.to_nat i < length xs) then take (Z.to_nat i) xs ++ x :: drop (Z.to_nat i) xs
  else xs ++ [x].

(** [remove] reports whether the position existed. *)
Definition remove {A} (i : Z) (xs : list A) : list A * bool :=
  if decide (Z.to_nat i < length xs) then (take (Z.to_nat i) xs ++ drop (S (Z.to_nat i)) xs, true)
  else (xs, false).

(** The position of the first occurrence, or the length when absent. *)
Fixpoint index_of (x : Z) (xs : list Z) : nat :=
  match xs with
  | [] => 0
  | y :: ys => if decide (y = x) then 0 else S (index_of x ys)
  end.

(** The traversal printed by [print_list]: every payload followed by the
    connector, then the terminator. *)
Definition render (xs : list Z) : ostream :=
  (xs ≫= λ x, [OInt x; OStr " -> "]) ++ [OStr "NULL"; OEndl].

(** ** Facts about the contract *)

Lemma index_of_le x xs : index_of x xs ≤ length xs.
Proof. induction xs as [|y ys IH]; simpl; [lia|]. case_decide; lia. Qed.

Lemma index_of_lt x xs : index_of x xs < length xs ↔ x ∈ xs.
Proof.
  induction xs as [|y ys IH]; simpl.
  - split; [lia | by intros ?%elem_of_nil].
  - rewrite elem_of_cons. case_decide; [subst; split; [auto | lia]|].
    split; [intros ?; right; apply IH; lia | intros [->|?]; [done | apply IH in H0; lia]].
Qed.

Lemma index_of_lookup x xs : x ∈ xs → xs !! index_of x xs = Some x.
Proof.
  induction xs as [|y ys IH]; simpl; [by intros ?%elem_of_nil|].
  rewrite elem_of_cons. case_decide; [by subst|]. intros [->|?]; [done | auto].
Qed.

Lemma index_of_first x xs j : (j < index_of x xs)%nat → xs !! j ≠ Some x.
Proof.
  revert j. induction xs as [|y ys IH]; intros j; simpl; [lia|].
  case_decide; [lia|]. destruct j; simpl; [congruence|]. intros ?. apply IH. lia.
Qed.

Lemma index_of_absent x xs : x ∉ xs → index_of x xs = length xs.
Proof.
  intros Hx. pose proof (index_of_le x xs).
  assert (¬ index_of x xs < length xs) by (rewrite index_of_lt; done). lia.
Qed.

Lemma index_of_app_absent x xs ys : x ∉ xs → index_of x (xs ++ ys) = (length xs + index_of x ys)%nat.
Proof.
  induction xs as [|y xs IH]; simpl; [done|]. rewrite elem_of_cons.
  intros ?. rewrite decide_False; [|naive_solver]. rewrite IH; naive_solver.
Qed.

Lemma length_insert_spec {A} i (x : A) xs : length (insert i x xs) = S (length xs).
Proof.
  unfold insert. case_decide.
  - rewrite length_app. simpl. rewrite length_take, length_drop. lia.
  - rewrite length_app. simpl. lia.
Qed.

Lemma length_remove_spec {A} i (xs : list A) :
  length (remove i xs).1 = if (remove i xs).2 then pred (length xs) else length xs.
Proof.
  unfold remove. case_decide; simpl; [|done].
  rewrite length_app, length_take, length_drop. lia.
Qed.

Lemma drop_S_app {A} (l k : list A) y : drop (S (length l)) (l ++ y :: k) = k.
Proof. induction l; simpl; auto. Qed.

Lemma insert_zero {A} (x : A) xs : insert 0 x xs = x :: xs.
Proof. unfold insert. simpl. case_decide; [done|]. destruct xs; simpl in *; [done | lia]. Qed.

Lemma insert_past {A} i (x : A) xs : length xs ≤ Z.to_nat i → insert i x xs = xs ++ [x].
Proof. intros ?. unfold insert. by rewrite decide_False by lia. Qed.

Lemma insert_middle {A} i (y : A) xs1 x xs2 :
  Z.to_nat i = S (length xs1) → xs2 ≠ [] → insert i y (xs1 ++ x :: xs2) = xs1 ++ x :: y :: xs2.
Proof.
  intros Hi Hne. unfold insert. rewrite Hi, decide_True.
  - replace (xs1 ++ x :: xs2) with ((xs1 ++ [x]) ++ xs2) by (by rewrite <- app_assoc).
    replace (S (length xs1)) with (length (xs1 ++ [x])) by (rewrite length_app; simpl; lia).
    rewrite take_app_length, drop_app_length, <- app_assoc. done.
  - destruct xs2; [done|]. rewrite length_app. simpl. lia.
Qed.

Lemma remove_past {A} i (xs : list A) : length xs ≤ Z.to_nat i → remove i xs = (xs, false).
Proof. intros ?. unfold remove. by rewrite decide_False by lia. Qed.

Lemma remove_zero {A} (x : A) xs : remove 0 (x :: xs) = (xs, true).
Proof. reflexivity. Qed.

Lemma remove_middle {A} i (xs1 : list A) x y xs2 :
  Z.to_nat i = S (length xs1) → remove i (xs1 ++ x :: y :: xs2) = (xs1 ++ x :: xs2, true).
Proof.
  intros Hi. unfold remove. rewrite Hi, decide_True by (rewrite length_app; simpl; lia).
  replace (xs1 ++ x :: y :: xs2) with ((xs1 ++ [x]) ++ y :: xs2) by (by rewrite <- app_assoc).
  replace (S (length xs1)) with (length (xs1 ++ [x])) by (rewrite length_app; simpl; lia).
  rewrite take_app_length, drop_S_app, <- app_assoc. done.
Qed.

(** [insert] and [remove] commute with a map on the elements. *)
Lemma insert_fmap {A B} (f : A → B) i x xs : f <$> insert i x xs = insert i (f x) (f <$> xs).
Proof.
  unfold insert. rewrite length_fmap. case_decide; rewrite fmap_app; [|done].
  by rewrite fmap_cons, fmap_take, fmap_drop.
Qed.

Lemma remove_fmap {A B} (f : A → B) i xs : remove i (f <$> xs) = (f <$> (remove i xs).1, (remove i xs).2).
Proof.
  unfold remove. rewrite length_fmap. case_decide; [|done]. simpl.
  by rewrite fmap_app, fmap_take, fmap_drop.
Qed.

(** Removing at the position just inserted at gives the sequence back. *)
Lemma remove_insert {A} i (x : A) xs : Z.to_nat i ≤ length xs → remove i (insert i x xs) = (xs, true).
Proof.
  intros Hi. unfold insert. destruct (decide (Z.to_nat i < length xs)) as [Hlt|Hge]; unfold remove.
  - rewrite decide_True by (rewrite length_app; simpl; rewrite length_take, length_drop; lia).
    rewrite take_app_le, take_take, Nat.min_id by (rewrite length_take; lia).
    rewrite drop_app_ge by (rewrite length_take; lia). rewrite length_take, Nat.min_l by lia.
    rewrite Nat.sub_succ_l, Nat.sub_diag by lia. simpl. by rewrite drop_0, take_drop.
  - assert (Z.to_nat i = length xs) as -> by lia.
    rewrite decide_True by (rewrite length_app; simpl; lia).
    by rewrite take_app_length, drop_S_app, app_nil_r.
Qed.

End ListSpec.
