(* ===== verification/Memory.v ===== *)
(** The C++ heap seen by [Linked_List]: nodes ([struct Node], main.h lines
    11-17) stored at locations of a [gmap], [new Node(val)] through an
    allocator interface, [delete], and loads and stores through possibly
    null or dangling pointers.  Then the list-segment predicate [lseg] that
    relates a chain of [next] pointers to the list of its cells, and the
    frame condition [heap_frame] stating which locations an operation may
    allocate, release or must leave untouched. *)

From S2P Require Import Prelude.

(** ** Pointers and nodes *)

Definition loc := positive.

(** [Node*]: [None] is [nullptr]. *)
Abbreviation ptr := (option loc).

(** [struct Node { int data; Node* next; }] *)
Record Node := mkNode { data : Z; next : ptr }.

#[global] Instance Node_eq_dec : EqDecision Node.
Proof. solve_decision. Defined.

(** [Node(int val) : data(val), next(nullptr) {}] *)
Definition Node_ctor (val : Z) : Node := mkNode val None.

Abbreviation heap := (gmap loc Node).

(** ** The allocator interface

    [new] may return any location that is not currently allocated: the
    theorems of the list hold for every allocator with this law. *)
Class Allocator := {
  alloc : heap → loc;
  alloc_fresh h : h !! alloc h = None
}.

(** One allocator: the least location above the allocated ones. *)
#[export] Program Instance fresh_allocator : Allocator := {| alloc h := fresh (dom h) |}.
Next Obligation. intros h. apply not_elem_of_dom, is_fresh. Qed.

Section Heap.
Context `{!Allocator}.

(** [new Node(val)]: a fresh location holding [Node_ctor val]. *)
Definition new_node (h : heap) (val : Z) : heap * loc :=
  let l := alloc h in (<[l := Node_ctor val]> h, l).

(** [*p]: undefined on [nullptr] or on a location that is not allocated. *)
Definition load (h : heap) (p : ptr) : outcome Node :=
  match p with None => Undef | Some l => of_option (h !! l) end.

(** [p->next = q]. *)
Definition store_next (h : heap) (p q : ptr) : outcome heap :=
  match p with
  | None => Undef
  | Some l => match h !! l with
              | Some n => Ret (<[l := mkNode (data n) q]> h)
              | None => Undef
              end
  end.

(** [delete p]: no effect on [nullptr], undefined on a location that is
    not allocated (a double free). *)
Definition delete_node (h : heap) (p : ptr) : outcome heap :=
  match p with
  | None => Ret h
  | Some l => match h !! l with Some _ => Ret (delete l h) | None => Undef end
  end.

End Heap.

(** The heap primitives are used through their lemmas below. *)
Arguments load : simpl never.
Arguments store_next : simpl never.
Arguments delete_node : simpl never.

(** ** Chains of nodes *)

(** A cell is the location of a node and its payload. *)
Abbreviation cell := (loc * Z)%type.

(** [lseg h p q cs]: following [next] from [p] visits the cells [cs] and
    arrives at [q]. *)
Fixpoint lseg (h : heap) (p q : ptr) (cs : list cell) : Prop :=
  match cs with
  | [] => p = q
  | (l, x) :: cs' => p = Some l ∧ ∃ nx, h !! l = Some (mkNode x nx) ∧ lseg h nx q cs'
  end.

#[global] Instance lseg_dec h p q cs : Decision (lseg h p q cs).
Proof.
  revert p. induction cs as [|[l x] cs IH]; intros p; simpl; [apply _|].
  destruct (h !! l) as [[d nx]|] eqn:E.
  - destruct (decide (p = Some l ∧ d = x ∧ lseg h nx q cs)) as [Hy|Hn].
    + left. destruct Hy as (? & -> & ?). eauto.
    + right. intros (? & nx' & Hl & ?). simplify_eq. naive_solver.
  - right. intros (_ & nx' & Hl & _). congruence.
Defined.

(** The pointer to the first cell of [cs], or [q] when [cs] is empty. *)
Definition hd_ptr (cs : list cell) (q : ptr) : ptr :=
  match cs with [] => q | (l, _) :: _ => Some l end.

(** The pointer to the last cell of [cs], [nullptr] when empty. *)
Definition last_ptr (cs : list cell) : ptr := fst <$> last cs.

(** The bound given to the [while] loops that follow [next] pointers: the
    number of allocated nodes.  A walk along an acyclic chain visits each
    node at most once, so it never needs more. *)
Definition loop_fuel (h : heap) : nat := size h.

(** The locations of the cells, in order. *)
Definition locs (cs : list cell) : list loc := fst <$> cs.

(** The set of locations of the cells. *)
Definition fp (cs : list cell) : gset loc := list_to_set (locs cs).

(** ** The frame of an operation

    From [h] owning the cells [F] to [h'] owning [F']: locations outside
    both are untouched, locations dropped are released, locations added
    were not allocated before. *)
Definition heap_frame (h h' : heap) (F F' : gset loc) : Prop :=
  (∀ l, l ∉ F → l ∉ F' → h' !! l = h !! l) ∧
  (∀ l, l ∈ F → l ∉ F' → h' !! l = None) ∧
  (∀ l, l ∉ F → l ∈ F' → h !! l = None).

(** ** Lemmas on heap operations *)

Section HeapLemmas.
Context `{!Allocator}.

Lemma load_Some h l n : h !! l = Some n → load h (Some l) = Ret n.
Proof. intros E. unfold load. by rewrite E. Qed.

Lemma store_next_Some h l n q :
  h !! l = Some n → store_next h (Some l) q = Ret (<[l := mkNode (data n) q]> h).
Proof. intros E. unfold store_next. by rewrite E. Qed.

Lemma delete_node_Some h l n : h !! l = Some n → delete_node h (Some l) = Ret (delete l h).
Proof. intros E. unfold delete_node. by rewrite E. Qed.

Lemma new_node_fresh h v : h !! (new_node h v).2 = None.
Proof. apply alloc_fresh. Qed.

End HeapLemmas.

(** ** Lemmas on segments *)

Lemma locs_nil : locs [] = [].
Proof. reflexivity. Qed.

Lemma locs_cons c cs : locs (c :: cs) = c.1 :: locs cs.
Proof. reflexivity. Qed.

Lemma locs_app cs1 cs2 : locs (cs1 ++ cs2) = locs cs1 ++ locs cs2.
Proof. apply fmap_app. Qed.

Lemma length_locs cs : length (locs cs) = length cs.
Proof. apply length_fmap. Qed.

Arguments locs : simpl never.
#[global] Typeclasses Opaque locs.
#[export] Hint Rewrite locs_nil locs_cons locs_app : cxx_rw.

Lemma fp_cons l x cs : fp ((l, x) :: cs) = {[l]} ∪ fp cs.
Proof. reflexivity. Qed.

Lemma fp_app cs1 cs2 : fp (cs1 ++ cs2) = fp cs1 ∪ fp cs2.
Proof. unfold fp. by rewrite locs_app, list_to_set_app_L. Qed.

Lemma fp_nil : fp [] = ∅.
Proof. reflexivity. Qed.

#[export] Hint Rewrite fp_nil fp_cons fp_app : cxx_rw.

(** Equalities and memberships of footprints. *)
Ltac fp_solver := autorewrite with cxx_rw in *; set_solver.

(** Push [locs] through list constructors (and, for [cells_simpl], the
    payload projection too). *)
Ltac locs_simpl := rewrite ?locs_app, ?locs_cons, ?locs_nil in *; cbn [fst] in *.
Ltac cells_simpl := rewrite ?locs_app, ?locs_cons, ?locs_nil, ?fmap_app, ?fmap_cons in *; cbn [fst snd] in *.

Lemma elem_of_fp l cs : l ∈ fp cs ↔ l ∈ (locs cs).
Proof. unfold fp. by rewrite elem_of_list_to_set. Qed.

Lemma last_ptr_cons c cs :
  last_ptr (c :: cs) = match last_ptr cs with None => Some c.1 | t => t end.
Proof.
  unfold last_ptr. destruct cs as [|c' cs]; [done|]. simpl.
  destruct (fst <$> last (c' :: cs)) eqn:E; [done|].
  by apply fmap_None, last_None in E.
Qed.

Lemma last_ptr_snoc cs c : last_ptr (cs ++ [c]) = Some c.1.
Proof. unfold last_ptr. by rewrite last_snoc. Qed.

Lemma last_ptr_app cs1 cs2 : cs2 ≠ [] → last_ptr (cs1 ++ cs2) = last_ptr cs2.
Proof.
  intros Hne. destruct (exists_last Hne) as (cs0 & c & ->).
  by rewrite app_assoc, !last_ptr_snoc.
Qed.

Lemma last_ptr_None cs : last_ptr cs = None ↔ cs = [].
Proof.
  split; [|by intros ->]. intros H. destruct cs as [|c cs] using rev_ind; [done|].
  by rewrite last_ptr_snoc in H.
Qed.

Lemma last_ptr_mid cs1 c cs2 : cs2 ≠ [] → last_ptr (cs1 ++ c :: cs2) = last_ptr cs2.
Proof.
  intros Hne. rewrite last_ptr_app, last_ptr_cons by done.
  destruct (last_ptr cs2) eqn:E; [done|]. by apply last_ptr_None in E.
Qed.

Lemma last_ptr_in cs l : last_ptr cs = Some l → l ∈ (locs cs).
Proof.
  destruct cs as [|c cs] using rev_ind; [done|]. rewrite last_ptr_snoc. intros [= <-].
  rewrite locs_app. apply elem_of_app. right. left.
Qed.


#[global] Instance set_unfold_elem_of_fp l cs : SetUnfoldElemOf l (fp cs) (l ∈ locs cs).
Proof. constructor. apply elem_of_fp. Qed.

Lemma lseg_nil h p q : lseg h p q [] ↔ p = q.
Proof. reflexivity. Qed.

Lemma lseg_cons h p q l x cs :
  lseg h p q ((l, x) :: cs) ↔ p = Some l ∧ ∃ nx, h !! l = Some (mkNode x nx) ∧ lseg h nx q cs.
Proof. reflexivity. Qed.

Lemma lseg_app h p q cs1 cs2 :
  lseg h p q (cs1 ++ cs2) ↔ ∃ m, lseg h p m cs1 ∧ lseg h m q cs2.
Proof.
  revert p. induction cs1 as [|[l x] cs1 IH]; intros p; simpl.
  - split; [eauto | by intros (m & -> & ?)].
  - setoid_rewrite IH. naive_solver.
Qed.

Lemma lseg_hd h p q cs : lseg h p q cs → p = hd_ptr cs q.
Proof. destruct cs as [|[l x] cs]; simpl; naive_solver. Qed.

Lemma lseg_snoc h p q cs l x :
  lseg h p q (cs ++ [(l, x)]) ↔ lseg h p (Some l) cs ∧ ∃ n, h !! l = Some (mkNode x n) ∧ n = q.
Proof. rewrite lseg_app. simpl. naive_solver. Qed.

Lemma hd_ptr_in cs q : cs ≠ [] → ∃ l, hd_ptr cs q = Some l ∧ l ∈ (locs cs).
Proof. destruct cs as [|[l x] cs]; [done|]. intros _. exists l. split; [done | left]. Qed.

(** Each cell of a segment is a node holding the cell's payload. *)
Lemma lseg_cell h p q cs l x : lseg h p q cs → (l, x) ∈ cs → ∃ nx, h !! l = Some (mkNode x nx).
Proof.
  revert p. induction cs as [|[l' x'] cs IH]; intros p; simpl; [by intros _ ?%elem_of_nil|].
  intros (-> & nx & Hl & Hs). rewrite elem_of_cons. intros [[= -> ->]|?]; eauto.
Qed.

(** Two heaps holding the same segment agree on its cells, [next] fields
    included. *)
Lemma lseg_agree h h' p q cs l : lseg h p q cs → lseg h' p q cs → l ∈ fp cs → h' !! l = h !! l.
Proof.
  rewrite elem_of_fp. revert p. induction cs as [|[l' x] cs IH]; intros p; simpl.
  - rewrite locs_nil. by intros _ _ ?%elem_of_nil.
  - intros (-> & nx & Hl & Hs) (_ & nx' & Hl' & Hs'). locs_simpl. rewrite elem_of_cons.
    assert (nx' = nx) as -> by by rewrite (lseg_hd _ _ _ _ Hs), (lseg_hd _ _ _ _ Hs').
    intros [->|Hin]; [congruence | by eapply IH].
Qed.

(** A segment and a frame that leaves the rest of the heap alone determine
    the heap. *)
Lemma heap_frame_same h h' p q cs : lseg h p q cs → lseg h' p q cs → heap_frame h h' (fp cs) (fp cs) → h' = h.
Proof.
  intros Hs Hs' (Hout & _ & _). apply map_eq. intros l.
  destruct (decide (l ∈ fp cs)); [by eapply lseg_agree | by apply Hout].
Qed.

(** Every cell of a segment is allocated. *)
Lemma lseg_alloc h p q cs l : lseg h p q cs → l ∈ (locs cs) → is_Some (h !! l).
Proof.
  revert p. induction cs as [|[l' x] cs IH]; intros p; simpl; [by intros _ ?%elem_of_nil|].
  intros (-> & nx & Hl & Hs). rewrite locs_cons, elem_of_cons. intros [->|?]; eauto.
Qed.

Lemma lseg_fp_dom h p q cs : lseg h p q cs → fp cs ⊆ dom h.
Proof. intros Hs l Hl. apply elem_of_dom. eapply lseg_alloc; [done | by apply elem_of_fp]. Qed.

(** A segment only depends on the heap at its own cells. *)
Lemma lseg_frame h h' p q cs :
  (∀ l, l ∈ (locs cs) → h' !! l = h !! l) → lseg h p q cs → lseg h' p q cs.
Proof.
  revert p. induction cs as [|[l x] cs IH]; intros p Heq; simpl; [done|].
  intros (-> & nx & Hl & Hs). split; [done|]. exists nx. split.
  - rewrite Heq; [done | left].
  - apply IH; [|done]. intros l' ?. apply Heq. by right.
Qed.

Lemma lseg_insert_notin h p q cs l n :
  l ∉ (locs cs) → lseg h p q cs → lseg (<[l := n]> h) p q cs.
Proof.
  intros Hl. apply lseg_frame. intros l' ?. rewrite lookup_insert_ne; [done|].
  intros ->. contradiction.
Qed.

Lemma lseg_delete_notin h p q cs l :
  l ∉ (locs cs) → lseg h p q cs → lseg (delete l h) p q cs.
Proof.
  intros Hl. apply lseg_frame. intros l' ?. rewrite lookup_delete_ne; [done|].
  intros ->. contradiction.
Qed.

(** A location that is not allocated is not a cell. *)
Lemma lseg_fresh h p q cs l : lseg h p q cs → h !! l = None → l ∉ (locs cs).
Proof. intros Hs Hn Hin. destruct (lseg_alloc _ _ _ _ _ Hs Hin). congruence. Qed.

(** A chain of distinct cells is no longer than the heap is large. *)
Lemma lseg_length_le h p q cs : lseg h p q cs → NoDup (locs cs) → length cs ≤ loop_fuel h.
Proof.
  intros Hs Hnd. unfold loop_fuel. rewrite <- size_dom, <- (length_locs cs), <- (size_list_to_set (C := gset loc) _ Hnd).
  apply subseteq_size. intros l Hl. apply elem_of_list_to_set in Hl.
  apply elem_of_dom. eapply lseg_alloc; eauto.
Qed.

(** ** Lemmas on frames *)

Lemma heap_frame_refl h F : heap_frame h h F F.
Proof. repeat split; intros; set_solver. Qed.

Lemma heap_frame_trans h1 h2 h3 F1 F2 F3 :
  heap_frame h1 h2 F1 F2 → heap_frame h2 h3 F2 F3 → heap_frame h1 h3 F1 F3.
Proof.
  intros (A1 & B1 & C1) (A2 & B2 & C2).
  split; [|split]; intros l Hl1 Hl3; destruct (decide (l ∈ F2)) as [Hl2|Hl2].
  - rewrite B2, C1; auto.
  - rewrite A2, A1; auto.
  - auto.
  - rewrite A2; auto.
  - auto.
  - rewrite <- A1; auto.
Qed.

(** Allocating a fresh node adds it to the owned cells. *)
Lemma heap_frame_alloc h l n F F' :
  h !! l = None → F' = {[l]} ∪ F → heap_frame h (<[l := n]> h) F F'.
Proof.
  intros Hl ->. split; [|split]; intros l' ? ?.
  - rewrite lookup_insert_ne; set_solver.
  - set_solver.
  - assert (l' = l) as -> by set_solver. done.
Qed.

(** Writing an owned node keeps the owned cells. *)
Lemma heap_frame_update h l n F : l ∈ F → heap_frame h (<[l := n]> h) F F.
Proof.
  intros Hl. split; [|split]; intros l' ? ?; [|set_solver..].
  rewrite lookup_insert_ne; set_solver.
Qed.

Lemma heap_frame_update_eq h l n F F' : l ∈ F → F' = F → heap_frame h (<[l := n]> h) F F'.
Proof. intros ? ->. by apply heap_frame_update. Qed.

(** Deleting an owned node releases it. *)
Lemma heap_frame_free h l F F' :
  l ∉ F' → F = {[l]} ∪ F' → heap_frame h (delete l h) F F'.
Proof.
  intros Hl ->. split; [|split]; intros l' ? ?.
  - rewrite lookup_delete_ne; set_solver.
  - assert (l' = l) as -> by set_solver. apply lookup_delete_eq.
  - set_solver.
Qed.

(** Outside the owned cells, the allocated locations are the same. *)
Lemma heap_frame_dom h h' F F' : heap_frame h h' F F' → dom h' ∖ F' = dom h ∖ F.
Proof.
  intros (A & B & C). apply set_eq. intros l. rewrite !elem_of_difference, !elem_of_dom.
  destruct (decide (l ∈ F)), (decide (l ∈ F')).
  - naive_solver.
  - rewrite B by done. split; [intros [[? ?] _]; discriminate | naive_solver].
  - rewrite C by done. split; [naive_solver | intros [[? ?] _]; discriminate].
  - rewrite A; naive_solver.
Qed.

(** No leak: a heap that holds exactly the owned cells still does. *)
Lemma heap_frame_owned h h' F F' :
  heap_frame h h' F F' → dom h = F → F' ⊆ dom h' → dom h' = F'.
Proof.
  intros Hf Hd Hsub. pose proof (heap_frame_dom _ _ _ _ Hf) as E.
  rewrite Hd, difference_diag_L in E. apply set_eq. intros l. split; [|set_solver].
  intros Hl. destruct (decide (l ∈ F')); [done|].
  assert (l ∈ dom h' ∖ F') by set_solver. rewrite E in H. set_solver.
Qed.

(** An operation framed on [F] leaves alone every location of a set [G]
    disjoint from [F] that was allocated: such a location keeps its node
    and is not among the operation's new cells [F']. *)
Lemma heap_frame_other h h' F F' G :
  heap_frame h h' F F' → F ## G → G ⊆ dom h → F' ## G ∧ ∀ l, l ∈ G → h' !! l = h !! l.
Proof.
  intros (Hsame & _ & Hnew) Hdis Hsub.
  assert (HF' : ∀ l, l ∈ G → l ∉ F').
  { intros l Hl Hl'. assert (Hd : l ∈ dom h) by set_solver.
    apply elem_of_dom in Hd as [n Hn]. rewrite Hnew in Hn by set_solver. discriminate. }
  split; [intros l ??; by eapply HF'|]. intros l Hl. apply Hsame; [set_solver | by apply HF'].
Qed.
