(* ===== verification/LinkedList.v ===== *)
(** [Linked_List] (main.h lines 8-69, main.cpp lines 11-168): the member
    functions written statement by statement over the heap of [Memory],
    the representation invariant [repr], and for each operation the
    theorem that it implements its [ListSpec] contract on the cells it
    owns without touching the rest of the heap; the shape of the object,
    the exact iteration count of the destructor's loop, and the round
    trips [push_back]/[pop_back], [push_front]/[pop_front] and
    [insert]/[remove].  Each mutating operation is specified first on the
    cells ([refines_cells]) and then on their payloads ([refines]). *)

From S2P Require Import Prelude ListSpec Memory.

Module Linked_List.

(** The object: [Node* head; Node* tail; size_t num_items;]. *)
Record LL := mkLL { head : ptr; tail : ptr; num_items : Z }.

Section Ops.
Context `{!Allocator}.

(** [Linked_List() : head(nullptr), tail(nullptr), num_items(0) {}] *)
Definition Linked_List_ctor : LL := mkLL None None 0.

(** [push_front]: the new node points to the old head; an empty list
    also gets it as tail. *)
Definition push_front (val : Z) (h : heap) (ll : LL) : outcome (heap * LL) :=
  let '(h1, new) := new_node h val in
  h2 ← store_next h1 (Some new) (head ll);
  let tail' := match tail ll with None => Some new | Some _ => tail ll end in
  Ret (h2, mkLL (Some new) tail' (size_inc (num_items ll))).

(** [push_back]: the old tail points to the new node, or the new node
    becomes the head of an empty list. *)
Definition push_back (val : Z) (h : heap) (ll : LL) : outcome (heap * LL) :=
  let '(h1, new) := new_node h val in
  h2 ← (match tail ll with Some _ => store_next h1 (tail ll) (Some new) | None => Ret h1 end);
  let head' := match tail ll with Some _ => head ll | None => Some new end in
  Ret (h2, mkLL head' (Some new) (size_inc (num_items ll))).

(** [pop_front]: nothing on an empty list; otherwise the head advances,
    the old head is deleted, and the tail is cleared when the list
    becomes empty. *)
Definition pop_front (h : heap) (ll : LL) : outcome (heap * LL) :=
  match head ll with
  | None => Ret (h, ll)
  | Some _ =>
      let temp := head ll in
      n ← load h (head ll);
      let head' := next n in
      h1 ← delete_node h temp;
      let tail' := match head' with None => None | Some _ => tail ll end in
      Ret (h1, mkLL head' tail' (size_dec (num_items ll)))
  end.

(** [while (current->next != tail) current = current->next;] — one
    iteration per evaluation of the condition, at most [fuel]. *)
Fixpoint walk_to_pred (fuel : nat) (h : heap) (cur tl : ptr) : outcome ptr :=
  match fuel with
  | O => Undef
  | S f =>
      n ← load h cur;
      if decide (next n = tl) then Ret cur else walk_to_pred f h (next n) tl
  end.

(** [pop_back]: nothing on an empty list; a single node is deleted and
    both ends cleared; otherwise the predecessor of the tail is found by
    a walk from the head, the tail deleted, and the predecessor becomes
    the tail with a null [next]. *)
Definition pop_back (h : heap) (ll : LL) : outcome (heap * LL) :=
  match head ll with
  | None => Ret (h, ll)
  | Some _ =>
      if decide (head ll = tail ll) then
        h1 ← delete_node h (head ll);
        Ret (h1, mkLL None None (size_dec (num_items ll)))
      else
        cur ← walk_to_pred (loop_fuel h) h (head ll) (tail ll);
        h1 ← delete_node h (tail ll);
        h2 ← store_next h1 cur None;
        Ret (h2, mkLL (head ll) cur (size_dec (num_items ll)))
  end.

(** [front]: throws on an empty list. *)
Definition front (h : heap) (ll : LL) : outcome Z :=
  match head ll with
  | None => Throw "List is empty"
  | Some _ => n ← load h (head ll); Ret (data n)
  end.

(** [back]: throws when there is no tail. *)
Definition back (h : heap) (ll : LL) : outcome Z :=
  match tail ll with
  | None => Throw "List is empty"
  | Some _ => n ← load h (tail ll); Ret (data n)
  end.

(** [empty]: [num_items == 0]. *)
Definition empty (ll : LL) : bool := bool_decide (num_items ll = 0%Z).

(** [size]: [num_items]. *)
Definition size (ll : LL) : Z := num_items ll.

(** [for (size_t i = 0; i < k; ++i) current = current->next;] *)
Fixpoint advance (h : heap) (cur : ptr) (k : nat) : outcome ptr :=
  match k with
  | O => Ret cur
  | S k' => n ← load h cur; advance h (next n) k'
  end.

(** [insert]: position 0 is [push_front], a position at or past the size
    is [push_back]; otherwise the new node is created, the node before
    position [index] is reached, and the new node is spliced after it. *)
Definition insert (index item : Z) (h : heap) (ll : LL) : outcome (heap * LL) :=
  if decide (index = 0%Z) then push_front item h ll
  else if decide (num_items ll ≤ index)%Z then push_back item h ll
  else
    let '(h1, new) := new_node h item in
    cur ← advance h1 (head ll) (Z.to_nat (index - 1));
    c ← load h1 cur;
    h2 ← store_next h1 (Some new) (next c);
    h3 ← store_next h2 cur (Some new);
    Ret (h3, mkLL (head ll) (tail ll) (size_inc (num_items ll))).

(** [remove]: [false] for a position at or past the size; position 0 is
    [pop_front]; otherwise the node after the predecessor is unlinked,
    the tail moves back if it was that node, and the node is deleted. *)
Definition remove (index : Z) (h : heap) (ll : LL) : outcome (heap * LL * bool) :=
  if decide (num_items ll ≤ index)%Z then Ret (h, ll, false)
  else if decide (index = 0%Z) then
    hl ← pop_front h ll; Ret (hl.1, hl.2, true)
  else
    cur ← advance h (head ll) (Z.to_nat (index - 1));
    c ← load h cur;
    let temp := next c in
    t ← load h temp;
    h1 ← store_next h cur (next t);
    let tail' := if decide (temp = tail ll) then cur else tail ll in
    h2 ← delete_node h1 temp;
    Ret (h2, mkLL (head ll) tail' (size_dec (num_items ll)), true).

(** The loop of [find]: [Some index] at the first match, [None] at the
    end of the chain. *)
Fixpoint find_loop (fuel : nat) (h : heap) (cur : ptr) (item index : Z) : outcome (option Z) :=
  match cur with
  | None => Ret None
  | Some _ =>
      match fuel with
      | O => Undef
      | S f =>
          n ← load h cur;
          if decide (data n = item) then Ret (Some index)
          else find_loop f h (next n) item (size_inc index)
      end
  end.

(** [find]: the position of the first match, or [num_items]. *)
Definition find (item : Z) (h : heap) (ll : LL) : outcome Z :=
  r ← find_loop (loop_fuel h) h (head ll) item 0;
  Ret (match r with Some i => i | None => num_items ll end).

(** The loop of [print_list]: each payload followed by [" -> "]. *)
Fixpoint print_loop (fuel : nat) (h : heap) (cur : ptr) : outcome ostream :=
  match cur with
  | None => Ret []
  | Some _ =>
      match fuel with
      | O => Undef
      | S f => n ← load h cur; rest ← print_loop f h (next n); Ret (OInt (data n) :: OStr " -> " :: rest)
      end
  end.

(** [print_list]: the loop, then ["NULL"] and [endl]. *)
Definition print_list (h : heap) (ll : LL) : outcome ostream :=
  items ← print_loop (loop_fuel h) h (head ll);
  Ret (items ++ [OStr "NULL"; OEndl]).

(** The loop of the destructor: read [next], then delete the node. *)
Fixpoint destroy_loop (fuel : nat) (h : heap) (cur : ptr) : outcome heap :=
  match cur with
  | None => Ret h
  | Some _ =>
      match fuel with
      | O => Undef
      | S f => n ← load h cur; h1 ← delete_node h cur; destroy_loop f h1 (next n)
      end
  end.

(** [~Linked_List()]. *)
Definition Linked_List_dtor (h : heap) (ll : LL) : outcome heap :=
  destroy_loop (loop_fuel h) h (head ll).

End Ops.

(** ** The representation invariant

    The chain from [head] spells the cells [cs] and ends in [nullptr];
    [tail] points to the last cell; [num_items] is the number of cells and
    fits in a [size_t]; no cell occurs twice. *)
Definition repr (h : heap) (ll : LL) (cs : list cell) : Prop :=
  lseg h (head ll) None cs ∧ tail ll = last_ptr cs ∧
  num_items ll = Z.of_nat (length cs) ∧ (Z.of_nat (length cs) ≤ SIZE_MAX)%Z ∧ NoDup (locs cs).

#[global] Instance repr_dec h ll cs : Decision (repr h ll cs).
Proof. unfold repr. apply _. Defined.

(** The result of a mutating operation: it returns, the new state
    represents cells spelling [xs'], and the heap changed only on the
    cells allocated or released. *)
Definition refines (h : heap) (cs : list cell) (r : outcome (heap * LL)) (xs' : list Z) : Prop :=
  ∃ h' ll' cs', r = Ret (h', ll') ∧ repr h' ll' cs' ∧ cs'.*2 = xs' ∧ heap_frame h h' (fp cs) (fp cs').

(** The same at the level of cells: the new state represents exactly the
    cells [cs'] (locations included). *)
Definition refines_cells (h : heap) (cs : list cell) (r : outcome (heap * LL)) (cs' : list cell) : Prop :=
  ∃ h' ll', r = Ret (h', ll') ∧ repr h' ll' cs' ∧ heap_frame h h' (fp cs) (fp cs').

(** ** Proofs *)

Section Proofs.
Context `{!Allocator}.


Lemma repr_head_None h ll cs : repr h ll cs → head ll = None ↔ cs = [].
Proof. intros (Hs & _). apply lseg_hd in Hs. rewrite Hs. destruct cs as [|[]]; naive_solver. Qed.

Lemma repr_tail_None h ll cs : repr h ll cs → tail ll = None ↔ cs = [].
Proof. intros (_ & Ht & _). rewrite Ht. apply last_ptr_None. Qed.

Lemma NoDup_snoc_fresh (ls : list loc) l : NoDup ls → l ∉ ls → NoDup (ls ++ [l]).
Proof. intros ??. apply NoDup_app. split_and!; [done | set_solver | apply NoDup_singleton]. Qed.

(** [new Node(val)] in a heap that holds the chain [cs]: the new location
    is not a cell. *)
Lemma new_node_notin h p q cs val : lseg h p q cs → (new_node h val).2 ∉ (locs cs).
Proof. intros Hs. eapply lseg_fresh; [done | apply new_node_fresh]. Qed.

(** [push_front v] links a new node, at the location [new] returns, in
    front of the cells; it only allocates that node. *)
Lemma push_front_cells v h ll cs :
  repr h ll cs → (Z.of_nat (length cs) < SIZE_MAX)%Z →
  refines_cells h cs (push_front v h ll) (ListSpec.push_front (alloc h, v) cs).
Proof.
  intros (Hs & Ht & Hn & Hb & Hnd) Hlt. unfold ListSpec.push_front.
  pose proof (new_node_notin _ _ _ _ v Hs) as Hnot. pose proof (new_node_fresh h v) as Hl.
  unfold push_front, new_node in *. simpl in *. set (l := alloc h) in *.
  rewrite store_next_Some with (n := Node_ctor v) by apply lookup_insert_eq.
  rewrite insert_insert_eq. simpl.
  eexists _, _. split; [reflexivity|]. split.
  - split_and!; simpl.
    + split; [done|]. eexists. split; [apply lookup_insert_eq|]. by apply lseg_insert_notin.
    + rewrite last_ptr_cons, <- Ht. by destruct (tail ll).
    + rewrite Hn, size_inc_small; lia.
    + lia.
    + by constructor.
  - apply heap_frame_alloc; [done | fp_solver].
Qed.

(** [push_back v] on a non-empty list: the old tail points to the new
    node, which becomes the tail. *)
Lemma push_back_snoc_cells v h ll cs0 t x :
  repr h ll (cs0 ++ [(t, x)]) → (Z.of_nat (length (cs0 ++ [(t, x)])) < SIZE_MAX)%Z →
  refines_cells h (cs0 ++ [(t, x)]) (push_back v h ll) ((cs0 ++ [(t, x)]) ++ [(alloc h, v)]).
Proof.
  intros (Hs & Ht & Hn & Hb & Hnd) Hlt.
  pose proof (new_node_notin _ _ _ _ v Hs) as Hnot. pose proof (new_node_fresh h v) as Hl.
  unfold push_back, new_node in *. simpl in *. set (l := alloc h) in *.
  rewrite last_ptr_snoc in Ht. simpl in Ht. rewrite Ht.
  apply lseg_snoc in Hs as (Hs0 & nt & Htl & ->).
  locs_simpl.
  apply NoDup_app in Hnd as (Hnd0 & Hdis & _).
  assert (t ≠ l) by set_solver.
  assert (t ∉ (locs cs0)) by set_solver.
  rewrite store_next_Some with (n := mkNode x None) by (rewrite lookup_insert_ne; done).
  simpl. eexists _, _. split; [reflexivity|]. split.
  - split_and!.
    + simpl. rewrite <- app_assoc. apply lseg_app. exists (Some t). split.
      { apply lseg_insert_notin; [done|]. apply lseg_insert_notin; [set_solver | done]. }
      simpl. split; [done|]. eexists. split; [apply lookup_insert_eq|].
      split; [done|]. eexists. split; [|done].
      rewrite lookup_insert_ne by done. apply lookup_insert_eq.
    + by rewrite last_ptr_snoc.
    + simpl. rewrite Hn, size_inc_small, !length_app; simpl; lia.
    + rewrite !length_app in *. simpl in *. lia.
    + locs_simpl. apply NoDup_snoc_fresh; [|set_solver].
      apply NoDup_snoc_fresh; [done | set_solver].
  - eapply heap_frame_trans.
    + apply heap_frame_alloc with (F' := {[l]} ∪ fp (cs0 ++ [(t, x)])); [done | reflexivity].
    + eapply heap_frame_update_eq; [fp_solver | fp_solver].
Qed.

(** [push_back v] links a new node after the last cell; it only allocates
    that node and rewrites the old tail. *)
Lemma push_back_cells v h ll cs :
  repr h ll cs → (Z.of_nat (length cs) < SIZE_MAX)%Z →
  refines_cells h cs (push_back v h ll) (ListSpec.push_back (alloc h, v) cs).
Proof.
  intros Hr Hlt. unfold ListSpec.push_back. destruct (decide (cs = [])) as [->|Hne].
  - destruct Hr as (Hs & Ht & Hn & Hb & Hnd). pose proof (new_node_fresh h v) as Hl.
    unfold push_back, new_node in *. simpl in *. set (l := alloc h) in *.
    rewrite Ht. simpl. eexists _, _. split; [reflexivity|]. split.
    + split_and!; simpl.
      * split; [done|]. eexists. split; [apply lookup_insert_eq | done].
      * done.
      * rewrite Hn, size_inc_small; lia.
      * lia.
      * apply NoDup_singleton.
    + apply heap_frame_alloc; [done | fp_solver].
  - destruct (exists_last Hne) as (cs0 & [t x] & ->). by apply push_back_snoc_cells.
Qed.

(** [pop_front] unlinks the first cell (nothing on an empty list) and
    releases exactly that node. *)
Lemma pop_front_cells h ll cs :
  repr h ll cs → refines_cells h cs (pop_front h ll) (ListSpec.pop_front cs).
Proof.
  intros Hr. unfold ListSpec.pop_front. pose proof Hr as (Hs & Ht & Hn & Hb & Hnd).
  destruct cs as [|[l x] cs].
  - simpl in Hs. unfold pop_front. rewrite Hs.
    exists h, ll. split_and!; [done.. | apply heap_frame_refl].
  - destruct Hs as (Hhd & nx & Hl & Hs). unfold pop_front. rewrite Hhd. simpl.
    rewrite (load_Some _ _ _ Hl), bind_Ret. simpl.
    rewrite (delete_node_Some _ _ _ Hl), bind_Ret.
    locs_simpl. apply NoDup_cons in Hnd as [Hnl Hnd].
    eexists _, _. split; [reflexivity|]. split.
    + split_and!; simpl.
      * by apply lseg_delete_notin.
      * rewrite Ht, last_ptr_cons. apply lseg_hd in Hs as ->.
        destruct cs as [|[l' x'] cs]; [done|]. simpl.
        destruct (last_ptr ((l', x') :: cs)) eqn:E; [done|]. by apply last_ptr_None in E.
      * rewrite Hn, size_dec_small; simpl in *; lia.
      * simpl in Hb. lia.
      * done.
    + apply heap_frame_free; [set_solver | fp_solver].
Qed.

(** The walk of [pop_back] stops at the predecessor of the tail: the loop
    condition [current->next != tail] holds at every earlier node, since
    the cells are distinct. *)
Lemma walk_to_pred_spec fuel h p cs0 lp xp lt :
  lseg h p (Some lt) (cs0 ++ [(lp, xp)]) → NoDup (locs (cs0 ++ [(lp, xp)])) →
  lt ∉ (locs (cs0 ++ [(lp, xp)])) → length cs0 < fuel →
  walk_to_pred fuel h p (Some lt) = Ret (Some lp).
Proof.
  revert p fuel. induction cs0 as [|[l x] cs0 IH]; intros p fuel Hs Hnd Hlt Hf;
    (destruct fuel as [|fuel]; [simpl in Hf; lia|]); simpl.
  - destruct Hs as (-> & nx & Hl & ->). rewrite (load_Some _ _ _ Hl), bind_Ret. simpl.
    by rewrite decide_True.
  - destruct Hs as (-> & nx & Hl & Hs). rewrite (load_Some _ _ _ Hl), bind_Ret. simpl.
    destruct (hd_ptr_in (cs0 ++ [(lp, xp)]) (Some lt)) as (l' & Hh & Hin); [by destruct cs0|].
    locs_simpl. apply NoDup_cons in Hnd as [_ Hnd].
    rewrite decide_False.
    + apply IH; [done | done | set_solver | simpl in Hf; lia].
    + apply lseg_hd in Hs. rewrite Hs, Hh. intros [= Heq]. subst. set_solver.
Qed.

(** [pop_back] on a list of at least two nodes: the walk stops at the
    predecessor of the tail, the tail is released, and the predecessor
    becomes the tail with a null [next]. *)
Lemma pop_back_two_spec h ll cs0 lp xp lt xt :
  repr h ll ((cs0 ++ [(lp, xp)]) ++ [(lt, xt)]) →
  ∃ h' ll', pop_back h ll = Ret (h', ll') ∧ repr h' ll' (cs0 ++ [(lp, xp)]) ∧
    heap_frame h h' (fp ((cs0 ++ [(lp, xp)]) ++ [(lt, xt)])) (fp (cs0 ++ [(lp, xp)])).
Proof.
  intros Hr. pose proof Hr as (Hs & Ht & Hn & Hb & Hnd). unfold pop_back.
  rewrite last_ptr_snoc in Ht. simpl in Ht.
  rewrite locs_app in Hnd. apply NoDup_app in Hnd as (Hnd0 & Hdis & _).
  assert (Hlt : lt ∉ (locs (cs0 ++ [(lp, xp)]))) by (intros ?; eapply Hdis; [done | left]).
  apply lseg_snoc in Hs as (Hs0 & nt & Hlt_l & ->).
  pose proof Hs0 as Hs1. apply lseg_snoc in Hs1 as (Hs1 & np & Hlp & ->).
  destruct (hd_ptr_in (cs0 ++ [(lp, xp)]) (Some lt)) as (lh & Hh & Hin); [by destruct cs0|].
  pose proof (lseg_hd _ _ _ _ Hs0) as Hhd. rewrite Hh in Hhd.
  rewrite Hhd in Hs0, Hs1 |- *. rewrite Ht, decide_False by (intros [= ->]; set_solver). simpl.
  assert (Hfuel : length cs0 < loop_fuel h).
  { eapply Nat.lt_le_trans; [|eapply (lseg_length_le _ _ _ _ Hs0)]; [rewrite length_app; simpl; lia|done]. }
  rewrite (walk_to_pred_spec _ _ _ _ _ _ _ Hs0), bind_Ret by done.
  rewrite (delete_node_Some _ _ _ Hlt_l), bind_Ret.
  rewrite (store_next_Some _ lp (mkNode xp (Some lt))), bind_Ret; simpl;
    [|rewrite lookup_delete_ne; [done | intros ->; set_solver]].
  eexists _, _. split; [reflexivity|]. split.
  - split_and!.
    + apply lseg_snoc. split; [|eexists; split; [apply lookup_insert_eq | done]].
      apply lseg_insert_notin; [locs_simpl; by apply NoDup_snoc_notin|].
      apply lseg_delete_notin; [|done]. intros ?. apply Hlt. rewrite locs_app. apply elem_of_app. by left.
    + by rewrite last_ptr_snoc.
    + simpl. rewrite Hn, size_dec_small; rewrite !length_app in *; simpl in *; lia.
    + rewrite !length_app in *. simpl in *. lia.
    + done.
  - eapply heap_frame_trans.
    + apply heap_frame_free; [by rewrite elem_of_fp | fp_solver].
    + apply heap_frame_update_eq; [fp_solver | done].
Qed.

(** [pop_back] drops the last cell (nothing on an empty list). *)
Lemma pop_back_cells h ll cs :
  repr h ll cs → refines_cells h cs (pop_back h ll) (ListSpec.pop_back cs).
Proof.
  intros Hr. unfold ListSpec.pop_back. pose proof Hr as (Hs & Ht & Hn & Hb & Hnd).
  destruct cs as [|[l x] [|c cs]].
  - simpl in Hs. unfold pop_back. rewrite Hs. exists h, ll. split_and!; [done.. | apply heap_frame_refl].
  - destruct Hs as (Hhd & nx & Hl & ->). simpl in Ht. unfold pop_back. rewrite Hhd, Ht, decide_True by done.
    rewrite (delete_node_Some _ _ _ Hl), bind_Ret.
    cbn [removelast]. eexists _, _. split; [reflexivity|]. split.
    + simpl in Hb. split_and!; simpl; [done | done | rewrite Hn, size_dec_small; simpl; lia | lia | constructor].
    + apply heap_frame_free; fp_solver.
  - destruct (list_last_two ((l, x) :: c :: cs)) as (cs0 & [lp xp] & [lt xt] & Hcs); [simpl; lia|].
    rewrite Hcs in Hr |- *. destruct (pop_back_two_spec _ _ _ _ _ _ _ Hr) as (h' & ll' & -> & Hr' & Hf).
    rewrite removelast_last. by exists h', ll'.
Qed.

(** The [for] loop of [insert] and [remove] stops at the cell at position
    [length cs1]. *)
Lemma advance_spec h p q cs1 cs2 :
  lseg h p q (cs1 ++ cs2) → advance h p (length cs1) = Ret (hd_ptr cs2 q).
Proof.
  revert p. induction cs1 as [|[l x] cs1 IH]; intros p Hs; simpl.
  - by rewrite (lseg_hd _ _ _ _ Hs).
  - destruct Hs as (-> & nx & Hl & Hs). rewrite (load_Some _ _ _ Hl), bind_Ret. by apply IH.
Qed.

(** [insert] links the new node at position [i] of the cells, clamped as
    [ListSpec.insert] says. *)
Lemma insert_cells i v h ll cs :
  repr h ll cs → (0 ≤ i)%Z → (Z.of_nat (length cs) < SIZE_MAX)%Z →
  refines_cells h cs (insert i v h ll) (ListSpec.insert i (alloc h, v) cs).
Proof.
  intros Hr Hi Hlt. unfold insert. case_decide as Hi0.
  { subst. rewrite ListSpec.insert_zero. by apply push_front_cells. }
  pose proof Hr as (Hs & Ht & Hn & Hb & Hnd). case_decide as Hge.
  { rewrite ListSpec.insert_past by lia. by apply push_back_cells. }
  destruct (list_split_at cs (Z.to_nat (i - 1))) as (cs1 & [lp xp] & cs2 & -> & Hlen); [lia|].
  assert (Hne : cs2 ≠ []) by (intros ->; rewrite length_app in Hn; simpl in Hn; lia).
  rewrite ListSpec.insert_middle by (lia || done).
  pose proof (new_node_notin _ _ _ _ v Hs) as Hnot. pose proof (new_node_fresh h v) as Hl.
  unfold new_node in Hnot, Hl |- *. cbn [snd] in Hnot, Hl. simpl. set (l := alloc h) in *.
  pose proof Hs as Hs0. rewrite lseg_app in Hs. destruct Hs as (m & Hs1 & -> & nx & Hlp & Hs2).
  rewrite <- Hlen, (advance_spec _ _ _ _ _ (lseg_insert_notin _ _ _ _ _ _ Hnot Hs0)), bind_Ret.
  cells_simpl. apply NoDup_mid in Hnd as (Hlp1 & Hlp2 & Hnd1 & Hnd2 & Hdis).
  simpl. rewrite (load_Some _ lp (mkNode xp nx)), bind_Ret by (rewrite lookup_insert_ne; [done | set_solver]).
  simpl. rewrite store_next_Some with (n := Node_ctor v) by apply lookup_insert_eq.
  rewrite bind_Ret, insert_insert_eq. simpl.
  rewrite (store_next_Some _ lp (mkNode xp nx)), bind_Ret by (rewrite lookup_insert_ne; [done | set_solver]).
  simpl. eexists _, _. split; [reflexivity|]. split.
  - split_and!.
    + apply lseg_app. exists (Some lp). split.
      * do 2 (apply lseg_insert_notin; [set_solver|]). done.
      * split; [done|]. eexists. split; [apply lookup_insert_eq|]. split; [done|].
        eexists. split; [rewrite lookup_insert_ne by set_solver; apply lookup_insert_eq|].
        do 2 (apply lseg_insert_notin; [set_solver|]). done.
    + rewrite Ht, !last_ptr_mid by done. rewrite last_ptr_cons.
      destruct (last_ptr cs2) eqn:E; [done|]. by apply last_ptr_None in E.
    + simpl. rewrite Hn, size_inc_small by lia. rewrite !length_app. simpl. lia.
    + rewrite length_app in *. simpl in *. lia.
    + cells_simpl. apply NoDup_app. split_and!; [done | set_solver |].
      constructor; [set_solver|]. constructor; [set_solver | done].
  - eapply heap_frame_trans.
    + apply heap_frame_alloc with (F' := {[l]} ∪ fp (cs1 ++ (lp, xp) :: cs2)); [done | reflexivity].
    + apply heap_frame_update_eq; fp_solver.
Qed.

(** [remove] at a middle position [i]: the node after the predecessor is
    unlinked and released, and the tail moves back when it was that node. *)
Lemma remove_middle_spec i h ll cs1 lp xp lt xt cs2 :
  repr h ll (cs1 ++ (lp, xp) :: (lt, xt) :: cs2) → (0 < i)%Z → length cs1 = Z.to_nat (i - 1) →
  ∃ h' ll', remove i h ll = Ret (h', ll', true) ∧ repr h' ll' (cs1 ++ (lp, xp) :: cs2) ∧
    heap_frame h h' (fp (cs1 ++ (lp, xp) :: (lt, xt) :: cs2)) (fp (cs1 ++ (lp, xp) :: cs2)).
Proof.
  intros Hr Hi Hlen. pose proof Hr as (Hs & Ht & Hn & Hb & Hnd). unfold remove.
  rewrite !decide_False by (rewrite ?Hn, ?length_app; simpl; lia). simpl.
  pose proof Hs as Hs0. rewrite lseg_app in Hs.
  destruct Hs as (m & Hs1 & -> & nx & Hlp & -> & nt & Hlt & Hs2).
  rewrite <- Hlen, (advance_spec _ _ _ _ _ Hs0), bind_Ret. simpl.
  rewrite (load_Some _ _ _ Hlp), bind_Ret. simpl.
  rewrite (load_Some _ _ _ Hlt), bind_Ret. simpl.
  rewrite (store_next_Some _ _ _ _ Hlp), bind_Ret. simpl.
  cells_simpl. apply NoDup_mid in Hnd as (Hlp1 & Hlp2 & Hnd1 & Hnd2 & Hdis).
  apply NoDup_cons in Hnd2 as [Hlt2 Hnd2].
  rewrite (delete_node_Some _ lt (mkNode xt nt)), bind_Ret by (rewrite lookup_insert_ne; [done | set_solver]).
  eexists _, _. split; [reflexivity|]. split.
  - split_and!.
    + apply lseg_app. exists (Some lp). split.
      * apply lseg_delete_notin; [set_solver|]. apply lseg_insert_notin; [set_solver | done].
      * split; [done|]. eexists. split.
        { rewrite lookup_delete_ne by set_solver. apply lookup_insert_eq. }
        apply lseg_delete_notin; [set_solver|]. apply lseg_insert_notin; [set_solver | done].
    + destruct (decide (cs2 = [])) as [->|Hne].
      * rewrite Ht, last_ptr_mid, decide_True by done. by rewrite last_ptr_snoc.
      * rewrite Ht, !last_ptr_mid, last_ptr_cons by done.
        destruct (last_ptr cs2) as [l2|] eqn:E; [|by apply last_ptr_None in E].
        apply last_ptr_in in E. rewrite decide_False; [done|]. intros [= ->]. set_solver.
    + simpl. rewrite Hn, size_dec_small; rewrite !length_app in *; simpl in *; lia.
    + rewrite length_app in *. simpl in *. lia.
    + cells_simpl. apply NoDup_app. split_and!; [done | set_solver |]. constructor; [set_solver | done].
  - eapply heap_frame_trans; [|apply heap_frame_free; [|reflexivity]].
    + apply heap_frame_update_eq; fp_solver.
    + fp_solver.
Qed.

(** [remove] unlinks the cell at position [i] as [ListSpec.remove] says,
    and releases it. *)
Lemma remove_cells i h ll cs :
  repr h ll cs → (0 ≤ i)%Z →
  ∃ h' ll', remove i h ll = Ret (h', ll', (ListSpec.remove i cs).2) ∧ repr h' ll' (ListSpec.remove i cs).1 ∧
    heap_frame h h' (fp cs) (fp (ListSpec.remove i cs).1).
Proof.
  intros Hr Hi. pose proof Hr as (_ & _ & Hn & _).
  destruct (decide (num_items ll ≤ i)%Z) as [Hge|Hlt].
  { unfold remove. rewrite decide_True, ListSpec.remove_past by lia.
    exists h, ll. split_and!; [done.. | apply heap_frame_refl]. }
  destruct (decide (i = 0%Z)) as [->|Hi0].
  { unfold remove. rewrite decide_False, decide_True by lia.
    destruct cs as [|c cs]; [simpl in Hn; lia|].
    destruct (pop_front_cells _ _ _ Hr) as (h' & ll' & Hpop & Hr' & Hf).
    rewrite Hpop, bind_Ret, ListSpec.remove_zero. eauto. }
  destruct (list_split_at cs (Z.to_nat (i - 1))) as (cs1 & [lp xp] & [|[lt xt] cs2] & -> & Hlen); [lia| |].
  { rewrite length_app in Hn. simpl in Hn. lia. }
  destruct (remove_middle_spec i h ll cs1 lp xp lt xt cs2) as (h' & ll' & -> & Hr' & Hf); [done | lia | done |].
  rewrite ListSpec.remove_middle by lia. eauto.
Qed.

(** A heap and an object that represent [cs] are determined by [cs] and
    the rest of the heap. *)
Lemma repr_unique h h' ll ll' cs :
  repr h ll cs → repr h' ll' cs → heap_frame h h' (fp cs) (fp cs) → h' = h ∧ ll' = ll.
Proof.
  intros (Hs & Ht & Hn & _) (Hs' & Ht' & Hn' & _) Hf.
  assert (Hh : head ll' = head ll) by by rewrite (lseg_hd _ _ _ _ Hs), (lseg_hd _ _ _ _ Hs').
  rewrite Hh in Hs'. split; [by eapply heap_frame_same|]. destruct ll, ll'; simpl in *; congruence.
Qed.

(** ** The operations on the sequence of payloads *)

Lemma refines_cells_refines h cs r cs' xs' : refines_cells h cs r cs' → cs'.*2 = xs' → refines h cs r xs'.
Proof. intros (h' & ll' & -> & Hr & Hf) <-. by exists h', ll', cs'. Qed.

(** [push_front v] adds [v] in front, and it only allocates the new node. *)
Lemma push_front_spec v h ll cs :
  repr h ll cs → (Z.of_nat (length cs) < SIZE_MAX)%Z →
  refines h cs (push_front v h ll) (ListSpec.push_front v cs.*2).
Proof.
  intros. eapply refines_cells_refines; [by apply push_front_cells | done]. 
Qed.

(** [push_back v] appends [v]; it only allocates the new node and rewrites
    the old tail. *)
Lemma push_back_spec v h ll cs :
  repr h ll cs → (Z.of_nat (length cs) < SIZE_MAX)%Z →
  refines h cs (push_back v h ll) (ListSpec.push_back v cs.*2).
Proof.
  intros. eapply refines_cells_refines; [by apply push_back_cells | unfold ListSpec.push_back; by rewrite fmap_app]. 
Qed.

(** [pop_front] drops the first element (nothing on an empty list). *)
Lemma pop_front_spec h ll cs :
  repr h ll cs → refines h cs (pop_front h ll) (ListSpec.pop_front cs.*2).
Proof.
  intros. eapply refines_cells_refines; [by apply pop_front_cells | by destruct cs]. 
Qed.

(** [pop_back] implements [ListSpec.pop_back]. *)
Lemma pop_back_spec h ll cs :
  repr h ll cs → refines h cs (pop_back h ll) (ListSpec.pop_back cs.*2).
Proof.
  intros. eapply refines_cells_refines; [by apply pop_back_cells | unfold ListSpec.pop_back; by rewrite fmap_removelast]. 
Qed.

(** [insert] implements [ListSpec.insert]. *)
Lemma insert_spec i v h ll cs :
  repr h ll cs → (0 ≤ i)%Z → (Z.of_nat (length cs) < SIZE_MAX)%Z →
  refines h cs (insert i v h ll) (ListSpec.insert i v cs.*2).
Proof.
  intros. eapply refines_cells_refines; [by apply insert_cells | apply ListSpec.insert_fmap]. 
Qed.

(** [remove] implements [ListSpec.remove]. *)
Lemma remove_spec i h ll cs :
  repr h ll cs → (0 ≤ i)%Z →
  ∃ h' ll' cs', remove i h ll = Ret (h', ll', (ListSpec.remove i cs.*2).2) ∧ repr h' ll' cs' ∧
    cs'.*2 = (ListSpec.remove i cs.*2).1 ∧ heap_frame h h' (fp cs) (fp cs').
Proof.
  intros Hr Hi. destruct (remove_cells i h ll cs Hr Hi) as (h' & ll' & Hrm & Hr' & Hf).
  rewrite ListSpec.remove_fmap. by exists h', ll', (ListSpec.remove i cs).1.
Qed.

(** [front] agrees with [ListSpec.front]. *)
Lemma front_spec h ll cs : repr h ll cs → front h ll = ListSpec.front cs.*2.
Proof.
  intros (Hs & _). unfold front. destruct cs as [|[l x] cs]; simpl in Hs.
  - by rewrite Hs.
  - destruct Hs as (-> & nx & Hl & _). simpl. by rewrite (load_Some _ _ _ Hl).
Qed.

(** [back] agrees with [ListSpec.back]. *)
Lemma back_spec h ll cs : repr h ll cs → back h ll = ListSpec.back cs.*2.
Proof.
  intros (Hs & Ht & _). unfold back, ListSpec.back. rewrite Ht.
  destruct cs as [|[l x] cs _] using rev_ind; [done|].
  rewrite last_ptr_snoc, fmap_app. change ([(l, x)].*2) with [x]. rewrite last_snoc. simpl.
  apply lseg_snoc in Hs as (_ & n & Hl & ->). by rewrite (load_Some _ _ _ Hl).
Qed.

(** [empty] is [true] exactly on the empty sequence. *)
Lemma empty_refines h ll cs : repr h ll cs → empty ll = bool_decide (cs.*2 = []).
Proof.
  intros (_ & _ & Hn & _). unfold empty. rewrite Hn. apply bool_decide_ext.
  destruct cs; simpl; split; (lia || done).
Qed.

(** The loop of [find] scans the chain and stops at the first match. *)
Lemma find_loop_spec fuel h p cs item idx :
  lseg h p None cs → length cs ≤ fuel → (0 ≤ idx)%Z → (idx + Z.of_nat (length cs) ≤ SIZE_MAX)%Z →
  find_loop fuel h p item idx =
    Ret (if decide (item ∈ cs.*2) then Some (idx + Z.of_nat (ListSpec.index_of item cs.*2))%Z else None).
Proof.
  revert p fuel idx. induction cs as [|[l x] cs IH]; intros p fuel idx Hs Hf Hi Hb; simpl in Hs.
  - subst. by destruct fuel.
  - destruct Hs as (-> & nx & Hl & Hs). destruct fuel as [|fuel]; [simpl in Hf; lia|].
    cbn [find_loop]. rewrite (load_Some _ _ _ Hl), bind_Ret. cbn [data next].
    rewrite fmap_cons. cbn [snd ListSpec.index_of]. destruct (decide (x = item)) as [Hx|Hx].
    + subst. rewrite decide_True by (rewrite elem_of_cons; by left). by rewrite Nat2Z.inj_0, Z.add_0_r.
    + simpl in Hf, Hb. rewrite IH by (done || lia || (rewrite size_inc_small; lia)).
      rewrite size_inc_small by lia.
      destruct (decide (item ∈ cs.*2)) as [Hin|Hin].
      * rewrite decide_True by (rewrite elem_of_cons; by right). f_equal. f_equal. lia.
      * rewrite decide_False; [done|]. rewrite elem_of_cons. naive_solver.
Qed.

(** [find] agrees with [ListSpec.index_of]. *)
Lemma find_spec item h ll cs :
  repr h ll cs → find item h ll = Ret (Z.of_nat (ListSpec.index_of item cs.*2)).
Proof.
  intros (Hs & Ht & Hn & Hb & Hnd). unfold find.
  rewrite (find_loop_spec _ _ _ cs) by (done || lia || by eapply lseg_length_le). rewrite bind_Ret.
  case_decide as Hin; [done|]. rewrite ListSpec.index_of_absent, length_fmap by done. by rewrite Hn.
Qed.

(** The loop of [find] completes exactly when it may run one iteration
    per node up to and including the first match. *)
Lemma find_loop_fuel fuel h p cs item idx :
  lseg h p None cs →
  find_loop fuel h p item idx ≠ Undef ↔ min (S (ListSpec.index_of item cs.*2)) (length cs) ≤ fuel.
Proof.
  revert p fuel idx. induction cs as [|[l x] cs IH]; intros p fuel idx Hs; simpl in Hs.
  - subst. destruct fuel; simpl; split; (done || lia).
  - destruct Hs as (-> & nx & Hl & Hs). destruct fuel as [|fuel]; [simpl; split; (done || lia)|].
    cbn [find_loop]. rewrite (load_Some _ _ _ Hl), bind_Ret. cbn [data next].
    rewrite fmap_cons. cbn [snd ListSpec.index_of length].
    destruct (decide (x = item)); [split; (done || lia)|].
    rewrite (IH nx fuel). lia. done.
Qed.

(** The loop of [print_list] visits every node. *)
Lemma print_loop_spec fuel h p cs :
  lseg h p None cs → length cs ≤ fuel → print_loop fuel h p = Ret (cs.*2 ≫= λ x, [OInt x; OStr " -> "]).
Proof.
  revert p fuel. induction cs as [|[l x] cs IH]; intros p fuel Hs Hf; simpl in Hs.
  - subst. by destruct fuel.
  - destruct Hs as (-> & nx & Hl & Hs). destruct fuel as [|fuel]; [simpl in Hf; lia|].
    cbn [print_loop]. rewrite (load_Some _ _ _ Hl), bind_Ret. cbn [data next]. simpl in Hf.
    rewrite (IH nx fuel), bind_Ret by (done || lia). reflexivity.
Qed.

(** [print_list] writes [ListSpec.render]. *)
Lemma print_list_spec h ll cs : repr h ll cs → print_list h ll = Ret (ListSpec.render cs.*2).
Proof.
  intros (Hs & _ & _ & _ & Hnd). unfold print_list.
  rewrite (print_loop_spec _ _ _ cs) by (done || by eapply lseg_length_le). done.
Qed.

(** The destructor's loop releases every node of the chain. *)
Lemma destroy_loop_spec fuel h p cs :
  lseg h p None cs → NoDup (locs cs) → length cs ≤ fuel →
  ∃ h', destroy_loop fuel h p = Ret h' ∧ heap_frame h h' (fp cs) ∅.
Proof.
  revert h p fuel. induction cs as [|[l x] cs IH]; intros h p fuel Hs Hnd Hf; simpl in Hs.
  - subst. exists h. split; [by destruct fuel | apply heap_frame_refl].
  - destruct Hs as (-> & nx & Hl & Hs). destruct fuel as [|fuel]; [simpl in Hf; lia|]. simpl.
    rewrite (load_Some _ _ _ Hl), bind_Ret, (delete_node_Some _ _ _ Hl), bind_Ret. simpl.
    locs_simpl. apply NoDup_cons in Hnd as [Hl' Hnd]. simpl in Hf.
    destruct (IH (delete l h) nx fuel) as (h' & Hrun & Hfr); [by apply lseg_delete_notin | done | lia |].
    exists h'. split; [done|]. eapply heap_frame_trans; [|exact Hfr].
    apply heap_frame_free; fp_solver.
Qed.

(** The destructor releases exactly the cells. *)
Lemma dtor_spec h ll cs :
  repr h ll cs → ∃ h', Linked_List_dtor h ll = Ret h' ∧ heap_frame h h' (fp cs) ∅.
Proof.
  intros (Hs & _ & _ & _ & Hnd). unfold Linked_List_dtor.
  apply destroy_loop_spec; [done.. | by eapply lseg_length_le].
Qed.

(** The claims [C1] to [C6] are stated on the cells (location, payload)
    of the list: the operation applies its [ListSpec] function to the
    cells themselves, the new node being the one [new] returns, at
    [alloc h].  So the payloads follow [ListSpec], every node that stays
    keeps its location, and the heap frame names exactly the nodes
    allocated or released. *)

(** C1: [push_back v] appends: on a heap that represents the cells [cs]
    (fewer than [SIZE_MAX] of them) it returns, keeps the invariant, the
    list's cells become [cs ++ [(new, v)]], and the heap changes only by
    the new node and the old tail's [next]. *)
Theorem push_back_refines v h ll cs :
  repr h ll cs → (Z.of_nat (length cs) < SIZE_MAX)%Z →
  refines_cells h cs (push_back v h ll) (ListSpec.push_back (alloc h, v) cs).
Proof. apply push_back_cells. Qed.

(** C2: [push_front v] prepends: it returns, keeps the invariant, the
    cells become [(new, v) :: cs], and it only allocates the new node (an
    empty list also gets it as tail). *)
Theorem push_front_refines v h ll cs :
  repr h ll cs → (Z.of_nat (length cs) < SIZE_MAX)%Z →
  refines_cells h cs (push_front v h ll) (ListSpec.push_front (alloc h, v) cs).
Proof. apply push_front_cells. Qed.

(** C3: [pop_front] drops the first cell and does nothing on an empty
    list: it returns, keeps the invariant (the tail is cleared when the
    list becomes empty), and releases exactly the old head. *)
Theorem pop_front_refines h ll cs :
  repr h ll cs → refines_cells h cs (pop_front h ll) (ListSpec.pop_front cs).
Proof. apply pop_front_cells. Qed.

(** C4: [pop_back] drops the last cell (nothing on an empty list): the
    walk to the predecessor terminates within its bound, and exactly the
    old tail is released. *)
Theorem pop_back_refines h ll cs :
  repr h ll cs → refines_cells h cs (pop_back h ll) (ListSpec.pop_back cs).
Proof. apply pop_back_cells. Qed.

(** C5: [insert i v] puts the new cell at position [i], clamped: position
    0 goes in front, a position at or past the size goes at the back, and
    a middle position is spliced after its predecessor; only the new node
    is allocated and only the predecessor rewritten. *)
Theorem insert_refines i v h ll cs :
  repr h ll cs → (0 ≤ i)%Z → (Z.of_nat (length cs) < SIZE_MAX)%Z →
  refines_cells h cs (insert i v h ll) (ListSpec.insert i (alloc h, v) cs).
Proof. apply insert_cells. Qed.

(** C6: [remove i] unlinks the cell at position [i] and answers [true],
    or answers [false] and changes nothing when [i] is at or past the
    size; removing the last node moves the tail back to its predecessor;
    exactly the removed node is released. *)
Theorem remove_refines i h ll cs :
  repr h ll cs → (0 ≤ i)%Z →
  ∃ h' ll', remove i h ll = Ret (h', ll', (ListSpec.remove i cs).2) ∧ repr h' ll' (ListSpec.remove i cs).1 ∧
    heap_frame h h' (fp cs) (fp (ListSpec.remove i cs).1).
Proof. apply remove_cells. Qed.

(** C19: [find item] returns the position of the first occurrence of [item],
    or the size of the list when it is absent; its loop ends within its
    bound. *)
Theorem find_refines item h ll cs :
  repr h ll cs → find item h ll = Ret (Z.of_nat (ListSpec.index_of item cs.*2)).
Proof. apply find_spec. Qed.

(** C20: [front] returns the first payload, and on an empty list throws
    [runtime_error("List is empty")], as the contract says. *)
Theorem front_refines h ll cs : repr h ll cs → front h ll = ListSpec.front cs.*2.
Proof. apply front_spec. Qed.

(** C21: [back] returns the last payload through the [tail] pointer, and on
    an empty list throws [runtime_error("List is empty")]. *)
Theorem back_refines h ll cs : repr h ll cs → back h ll = ListSpec.back cs.*2.
Proof. apply back_spec. Qed.

(** C22: [print_list] writes every payload from head to tail, each followed by
    [" -> "], then ["NULL"] and a newline. *)
Theorem print_list_refines h ll cs : repr h ll cs → print_list h ll = Ret (ListSpec.render cs.*2).
Proof. apply print_list_spec. Qed.

(** C23: [~Linked_List] releases every node of the list and nothing else: its
    loop ends, and afterwards the list's cells are unallocated while every
    other location is as before. *)
Theorem dtor_releases h ll cs :
  repr h ll cs → ∃ h', Linked_List_dtor h ll = Ret h' ∧ heap_frame h h' (fp cs) ∅.
Proof. apply dtor_spec. Qed.

(** C13: the shape invariant of the object: [head], [tail] and
    [num_items] are null/zero together, [empty] answers whether the list
    has no node, following [next] [num_items - 1] times from [head] reaches
    [tail], and following it [num_items] times reaches [nullptr]. *)
Theorem repr_shape h ll cs :
  repr h ll cs →
  (head ll = None ↔ tail ll = None) ∧ (tail ll = None ↔ num_items ll = 0%Z) ∧
  (empty ll ↔ cs = []) ∧
  advance h (head ll) (Z.to_nat (num_items ll) - 1) = Ret (tail ll) ∧
  advance h (head ll) (Z.to_nat (num_items ll)) = Ret None.
Proof.
  intros Hr. pose proof Hr as (Hs & Ht & Hn & _).
  rewrite (repr_head_None _ _ _ Hr), (repr_tail_None _ _ _ Hr), Hn, Nat2Z.id.
  unfold empty. rewrite bool_decide_spec, Hn.
  split_and!; [done | | | |]. 1,2: destruct cs; simpl; split; (lia || done).
  - destruct cs as [|c cs _] using rev_ind; [by rewrite Ht, (lseg_hd _ _ _ _ Hs)|].
    rewrite length_app, Nat.add_sub, (advance_spec _ _ _ cs [c]) by done.
    rewrite Ht, last_ptr_snoc. by destruct c.
  - rewrite <- (app_nil_r cs) in Hs. rewrite (advance_spec _ _ _ cs []) by done. done.
Qed.

(** With less fuel than nodes, the destructor's loop runs out. *)
Lemma destroy_loop_short fuel h p cs :
  lseg h p None cs → NoDup (locs cs) → fuel < length cs → destroy_loop fuel h p = Undef.
Proof.
  revert h p fuel. induction cs as [|[l x] cs IH]; intros h p fuel Hs Hnd Hf; simpl in *; [lia|].
  destruct Hs as (-> & nx & Hl & Hs). destruct fuel as [|fuel]; [done|]. simpl.
  rewrite locs_cons in Hnd. apply NoDup_cons in Hnd as [Hnl Hnd].
  rewrite (load_Some _ _ _ Hl), bind_Ret, (delete_node_Some _ _ _ Hl), bind_Ret. simpl.
  apply IH; [by apply lseg_delete_notin | done | lia].
Qed.

(** ** Termination of the destructor's loop *)

(** C24: the [while] loop of [~Linked_List] runs exactly one iteration per
    node: it completes precisely when it may run at least [num_items]
    iterations (and it completes within the bound [loop_fuel] used by
    the model, which is at least that). *)
Theorem dtor_loop_iterations h ll cs fuel :
  repr h ll cs → destroy_loop fuel h (head ll) ≠ Undef ↔ Z.to_nat (num_items ll) ≤ fuel.
Proof.
  intros Hr. pose proof Hr as (Hs & _ & Hn & _ & Hnd). rewrite Hn, Nat2Z.id. split.
  - intros Hd. destruct (decide (length cs ≤ fuel)) as [|Hlt]; [done|].
    exfalso. apply Hd. apply (destroy_loop_short _ _ _ cs); [done | done | lia].
  - intros Hf. by destruct (destroy_loop_spec fuel h (head ll) cs Hs Hnd Hf) as (h' & -> & _).
Qed.

(** C25: the [while] loop of [find] stops at the first match: it
    completes precisely when it may run one iteration per node up to and
    including the first node holding [item], and one per node when
    [item] is absent. *)
Theorem find_loop_iterations item h ll cs fuel :
  repr h ll cs →
  find_loop fuel h (head ll) item 0 ≠ Undef ↔
    min (S (ListSpec.index_of item cs.*2)) (Z.to_nat (size ll)) ≤ fuel.
Proof.
  intros (Hs & _ & Hn & _). unfold size. rewrite Hn, Nat2Z.id. by apply find_loop_fuel.
Qed.

(** ** Round trips *)

(** C16: [pop_back] undoes [push_back v] exactly: on a list of fewer than
    [SIZE_MAX] elements the two calls return the original heap (the new
    node is released and the old tail's [next] is reset to [nullptr]) and
    the original object. *)
Theorem push_back_pop_back v h ll cs :
  repr h ll cs → (Z.of_nat (length cs) < SIZE_MAX)%Z →
  (hl ← push_back v h ll; pop_back hl.1 hl.2) = Ret (h, ll).
Proof.
  intros Hr Hlt. pose proof Hr as (Hs & Ht & Hn & Hb & Hnd).
  pose proof (new_node_notin _ _ _ _ v Hs) as Hnot. pose proof (new_node_fresh h v) as Hl.
  unfold push_back, new_node in *. simpl in *. set (l := alloc h) in *.
  destruct (decide (cs = [])) as [->|Hne].
  - simpl in Hs, Ht, Hn. rewrite Ht. simpl. unfold pop_back. simpl. rewrite decide_True by done.
    rewrite (delete_node_Some _ l (Node_ctor v)), bind_Ret by apply lookup_insert_eq.
    rewrite delete_insert_id by done. destruct ll as [hd tl n]; simpl in *; subst. done.
  - destruct (exists_last Hne) as (cs0 & [t x] & ->). clear Hne.
    rewrite last_ptr_snoc in Ht. simpl in Ht. rewrite Ht.
    pose proof Hs as Hs'. apply lseg_snoc in Hs' as (Hs0 & nt & Htl & ->).
    assert (t ≠ l) by (intros ->; apply Hnot; locs_simpl; set_solver).
    rewrite (store_next_Some _ t (mkNode x None)), bind_Ret by (by rewrite lookup_insert_ne).
    simpl. set (h2 := <[t:=mkNode x (Some l)]> (<[l:=Node_ctor v]> h)).
    destruct (hd_ptr_in (cs0 ++ [(t, x)]) None) as (lh & Hh & Hin); [by destruct cs0|].
    pose proof (lseg_hd _ _ _ _ Hs) as Hhd. rewrite Hh in Hhd.
    assert (Hs2 : lseg h2 (head ll) (Some l) (cs0 ++ [(t, x)])).
    { apply lseg_snoc. split; [|eexists; split; [apply lookup_insert_eq | done]].
      locs_simpl. pose proof (NoDup_snoc_notin _ _ Hnd).
      apply lseg_insert_notin; [done|]. apply lseg_insert_notin; [set_solver | done]. }
    unfold pop_back. simpl. rewrite Hhd. rewrite decide_False by (intros [= ->]; set_solver).
    rewrite <- Hhd, (walk_to_pred_spec _ _ _ cs0 t x l Hs2), bind_Ret; [|done | done |].
    2: { eapply Nat.lt_le_trans; [|apply (lseg_length_le _ _ _ _ Hs2 Hnd)]. rewrite length_app. simpl. lia. }
    rewrite (delete_node_Some _ l (Node_ctor v)), bind_Ret
      by (unfold h2; rewrite lookup_insert_ne by done; apply lookup_insert_eq).
    rewrite (store_next_Some _ t (mkNode x (Some l))), bind_Ret
      by (unfold h2; rewrite lookup_delete_ne by done; apply lookup_insert_eq).
    unfold h2. simpl. rewrite delete_insert_ne, insert_insert_eq, delete_insert_id, insert_id by done.
    destruct ll as [hd tl n]; simpl in *; subst. rewrite size_dec_inc by lia. done.
Qed.

(** C17: [pop_front] undoes [push_front v] exactly: the new node is
    released, [head] is restored, and [tail] is restored too (it was set to
    the new node only when the list was empty, and [pop_front] clears it
    again in that case). *)
Theorem push_front_pop_front v h ll cs :
  repr h ll cs → (Z.of_nat (length cs) < SIZE_MAX)%Z →
  (hl ← push_front v h ll; pop_front hl.1 hl.2) = Ret (h, ll).
Proof.
  intros Hr Hlt. pose proof Hr as (Hs & Ht & Hn & Hb & Hnd). pose proof (new_node_fresh h v) as Hl.
  unfold push_front, new_node in *. simpl in *. set (l := alloc h) in *.
  rewrite (store_next_Some _ l (Node_ctor v)), bind_Ret by apply lookup_insert_eq.
  simpl. rewrite insert_insert_eq. unfold pop_front. simpl.
  rewrite (load_Some _ l (mkNode v (head ll))), bind_Ret by apply lookup_insert_eq. simpl.
  rewrite (delete_node_Some _ l (mkNode v (head ll))), bind_Ret by apply lookup_insert_eq.
  rewrite delete_insert_id by done. pose proof (repr_head_None _ _ _ Hr) as Hhd.
  pose proof (repr_tail_None _ _ _ Hr) as Htl.
  destruct ll as [hd tl n]; simpl in *. rewrite size_dec_inc by lia.
  destruct hd, tl; naive_solver.
Qed.

(** C18: [remove i] undoes [insert i v] exactly at every position up to
    the size ([0 <= i <= size()]): it unlinks the node [insert] linked in
    and answers [true], and the heap and the object are the original ones.
    Past the size the two calls do not cancel: [insert] clamps to the back
    while [remove] answers [false]. *)
Theorem insert_remove i v h ll cs :
  repr h ll cs → (0 ≤ i)%Z → Z.to_nat i ≤ length cs → (Z.of_nat (length cs) < SIZE_MAX)%Z →
  (hl ← insert i v h ll; remove i hl.1 hl.2) = Ret (h, ll, true).
Proof.
  intros Hr Hi Hle Hlt.
  destruct (insert_cells i v h ll cs Hr Hi Hlt) as (h1 & ll1 & -> & Hr1 & Hf1). rewrite bind_Ret. simpl.
  destruct (remove_cells i h1 ll1 _ Hr1 Hi) as (h2 & ll2 & -> & Hr2 & Hf2).
  rewrite ListSpec.remove_insert in Hr2, Hf2 |- * by done. simpl in *.
  by destruct (repr_unique h h2 ll ll2 cs) as [-> ->]; [| | eapply heap_frame_trans |].
Qed.

End Proofs.

(** ** Concrete runs

    The list [10 -> 20 -> 30] at locations 1, 2, 3. *)
Definition demo_cells : list cell := [(1%positive, 10%Z); (2%positive, 20%Z); (3%positive, 30%Z)].
Definition demo_heap : heap :=
  {[1%positive := mkNode 10 (Some 2%positive); 2%positive := mkNode 20 (Some 3%positive);
    3%positive := mkNode 30 None]}.
Definition demo_ll : LL := mkLL (Some 1%positive) (Some 3%positive) 3.

Lemma push_back_refines_witness :
  refines_cells demo_heap demo_cells (push_back 40 demo_heap demo_ll) (demo_cells ++ [(4%positive, 40%Z)]).
Proof. exact (push_back_refines 40 demo_heap demo_ll demo_cells ltac:(decide_concrete) ltac:(decide_concrete)). Defined.

Lemma push_front_refines_witness :
  refines_cells demo_heap demo_cells (push_front 5 demo_heap demo_ll) ((4%positive, 5%Z) :: demo_cells).
Proof. exact (push_front_refines 5 demo_heap demo_ll demo_cells ltac:(decide_concrete) ltac:(decide_concrete)). Defined.

Lemma pop_front_refines_witness :
  refines_cells demo_heap demo_cells (pop_front demo_heap demo_ll) [(2%positive, 20%Z); (3%positive, 30%Z)].
Proof. exact (pop_front_refines demo_heap demo_ll demo_cells ltac:(decide_concrete)). Defined.

Lemma pop_back_refines_witness :
  refines_cells demo_heap demo_cells (pop_back demo_heap demo_ll) [(1%positive, 10%Z); (2%positive, 20%Z)].
Proof. exact (pop_back_refines demo_heap demo_ll demo_cells ltac:(decide_concrete)). Defined.

(** The example of the specification: inserting 99 at position 1. *)
Lemma insert_refines_witness :
  refines_cells demo_heap demo_cells (insert 1 99 demo_heap demo_ll)
    [(1%positive, 10%Z); (4%positive, 99%Z); (2%positive, 20%Z); (3%positive, 30%Z)].
Proof.
  exact (insert_refines 1 99 demo_heap demo_ll demo_cells
           ltac:(decide_concrete) ltac:(decide_concrete) ltac:(decide_concrete)).
Defined.

Lemma remove_refines_witness :
  ∃ h' ll', remove 1 demo_heap demo_ll = Ret (h', ll', true) ∧ repr h' ll' [(1%positive, 10%Z); (3%positive, 30%Z)] ∧
    heap_frame demo_heap h' (fp demo_cells) (fp [(1%positive, 10%Z); (3%positive, 30%Z)]).
Proof. exact (remove_refines 1 demo_heap demo_ll demo_cells ltac:(decide_concrete) ltac:(decide_concrete)). Defined.

(** [find] of a present value and of an absent one (the size). *)
Lemma find_refines_witness : find 20 demo_heap demo_ll = Ret 1%Z ∧ find 77 demo_heap demo_ll = Ret 3%Z.
Proof.
  split; [exact (find_refines 20 demo_heap demo_ll demo_cells ltac:(decide_concrete))
         |exact (find_refines 77 demo_heap demo_ll demo_cells ltac:(decide_concrete))].
Defined.

Lemma front_refines_witness :
  front demo_heap demo_ll = Ret 10%Z ∧ front ∅ Linked_List_ctor = Throw "List is empty".
Proof.
  split; [exact (front_refines demo_heap demo_ll demo_cells ltac:(decide_concrete))
         |exact (front_refines ∅ Linked_List_ctor [] ltac:(decide_concrete))].
Defined.

Lemma back_refines_witness :
  back demo_heap demo_ll = Ret 30%Z ∧ back ∅ Linked_List_ctor = Throw "List is empty".
Proof.
  split; [exact (back_refines demo_heap demo_ll demo_cells ltac:(decide_concrete))
         |exact (back_refines ∅ Linked_List_ctor [] ltac:(decide_concrete))].
Defined.

Lemma print_list_refines_witness :
  print_list demo_heap demo_ll =
    Ret [OInt 10; OStr " -> "; OInt 20; OStr " -> "; OInt 30; OStr " -> "; OStr "NULL"; OEndl].
Proof. exact (print_list_refines demo_heap demo_ll demo_cells ltac:(decide_concrete)). Defined.

Lemma dtor_releases_witness :
  ∃ h', Linked_List_dtor demo_heap demo_ll = Ret h' ∧ heap_frame demo_heap h' (fp demo_cells) ∅.
Proof. exact (dtor_releases demo_heap demo_ll demo_cells ltac:(decide_concrete)). Defined.

Lemma repr_shape_witness :
  advance demo_heap (head demo_ll) 2 = Ret (Some 3%positive) ∧ advance demo_heap (head demo_ll) 3 = Ret None.
Proof.
  destruct (repr_shape demo_heap demo_ll demo_cells ltac:(decide_concrete)) as (_ & _ & _ & H1 & H2).
  split; [exact H1 | exact H2].
Defined.

(** Two iterations are not enough for three nodes. *)
Lemma dtor_loop_iterations_witness :
  destroy_loop 2 demo_heap (head demo_ll) ≠ Undef ↔ 3 ≤ 2.
Proof. exact (dtor_loop_iterations demo_heap demo_ll demo_cells 2 ltac:(decide_concrete)). Defined.

(** [20] is the second node: one iteration is not enough. *)
Lemma find_loop_iterations_witness :
  find_loop 1 demo_heap (head demo_ll) 20 0 ≠ Undef ↔ 2 ≤ 1.
Proof. exact (find_loop_iterations 20 demo_heap demo_ll demo_cells 1 ltac:(decide_concrete)). Defined.

Lemma push_back_pop_back_witness :
  (hl ← push_back 40 demo_heap demo_ll; pop_back hl.1 hl.2) = Ret (demo_heap, demo_ll).
Proof. exact (push_back_pop_back 40 demo_heap demo_ll demo_cells ltac:(decide_concrete) ltac:(decide_concrete)). Defined.

(** The example of the specification, undone; and at position 3 = size(),
    the back. *)
Lemma insert_remove_witness :
  (hl ← insert 1 99 demo_heap demo_ll; remove 1 hl.1 hl.2) = Ret (demo_heap, demo_ll, true) ∧
  (hl ← insert 3 99 demo_heap demo_ll; remove 3 hl.1 hl.2) = Ret (demo_heap, demo_ll, true).
Proof.
  split.
  - exact (insert_remove 1 99 demo_heap demo_ll demo_cells
             ltac:(decide_concrete) ltac:(decide_concrete) ltac:(decide_concrete) ltac:(decide_concrete)).
  - exact (insert_remove 3 99 demo_heap demo_ll demo_cells
             ltac:(decide_concrete) ltac:(decide_concrete) ltac:(decide_concrete) ltac:(decide_concrete)).
Defined.

(** On an empty list, where [push_front] also sets [tail]. *)
Lemma push_front_pop_front_witness :
  (hl ← push_front 5 ∅ Linked_List_ctor; pop_front hl.1 hl.2) = Ret (∅, Linked_List_ctor).
Proof. exact (push_front_pop_front 5 ∅ Linked_List_ctor [] ltac:(decide_concrete) ltac:(decide_concrete)). Defined.

End Linked_List.
