(* ===== verification/Lifetime.v ===== *)
(** The life of a [Linked_List] object as its clients see it: sequences
    of calls on one object (what [main] and any other client may do), the
    object's lifetime as a state machine (constructed, any number of
    calls, destroyed) with its invariant and the absence of undefined
    behaviour along every run, and the copy operations that the compiler
    declares implicitly for the class (main.h lines 8-28 declare a
    destructor but neither a copy constructor nor a copy assignment). *)

From S2P Require Import Prelude ListSpec Memory LinkedList.

Module Lifetime.
Import Linked_List.

(** ** Sequences of list calls *)

(** A call on a [Linked_List] object that changes it. *)
Inductive list_call :=
| PushFront (v : Z)
| PushBack (v : Z)
| PopFront
| PopBack
| Insert (i v : Z)
| Remove (i : Z).

Definition exec_call (c : list_call) (h : heap) (ll : LL) : outcome (heap * LL) :=
  match c with
  | PushFront v => push_front v h ll
  | PushBack v => push_back v h ll
  | PopFront => pop_front h ll
  | PopBack => pop_back h ll
  | Insert i v => insert i v h ll
  | Remove i => r ← remove i h ll; Ret r.1
  end.

Fixpoint exec_calls (cs : list list_call) (h : heap) (ll : LL) : outcome (heap * LL) :=
  match cs with
  | [] => Ret (h, ll)
  | c :: cs' => '(h', ll') ← exec_call c h ll; exec_calls cs' h' ll'
  end.

(** The contract of a call and of a sequence of calls. *)
Definition spec_call (c : list_call) (xs : list Z) : list Z :=
  match c with
  | PushFront v => ListSpec.push_front v xs
  | PushBack v => ListSpec.push_back v xs
  | PopFront => ListSpec.pop_front xs
  | PopBack => ListSpec.pop_back xs
  | Insert i v => ListSpec.insert i v xs
  | Remove i => (ListSpec.remove i xs).1
  end.

Definition spec_calls (cs : list list_call) (xs : list Z) : list Z := foldl (flip spec_call) xs cs.

(** The arguments have the parameters' C++ types: [int val], [int item]
    and [size_t index]. *)
Definition valid_call (c : list_call) : Prop :=
  match c with
  | PushFront v | PushBack v => is_int v
  | PopFront | PopBack => True
  | Insert i v => is_size i ∧ is_int v
  | Remove i => is_size i
  end.

#[global] Instance valid_call_dec c : Decision (valid_call c).
Proof. destruct c; simpl; apply _. Defined.

(** ** The lifetime of one object

    A state is a live object with the heap, the destroyed object with the
    heap it leaves, or a run that hit undefined behaviour.  A live object
    takes any call with well-typed arguments (while it holds fewer than
    [SIZE_MAX] nodes, which no machine reaches) or is destroyed. *)
Inductive lstate :=
| Alive (h : heap) (ll : LL)
| Destroyed (h : heap)
| Crashed.

Inductive lstep : lstate → lstate → Prop :=
| lstep_call c h ll h' ll' :
    valid_call c → (num_items ll < SIZE_MAX)%Z → exec_call c h ll = Ret (h', ll') →
    lstep (Alive h ll) (Alive h' ll')
| lstep_call_ub c h ll :
    valid_call c → (num_items ll < SIZE_MAX)%Z → exec_call c h ll = Undef →
    lstep (Alive h ll) Crashed
| lstep_dtor h ll h' :
    Linked_List_dtor h ll = Ret h' → lstep (Alive h ll) (Destroyed h')
| lstep_dtor_ub h ll :
    Linked_List_dtor h ll = Undef → lstep (Alive h ll) Crashed.

(** [Linked_List list;] on an empty heap. *)
Definition initial : lstate := Alive ∅ Linked_List_ctor.

Definition reachable (s : lstate) : Prop := rtc lstep initial s.

(** The object owns exactly the heap: its chain spells [cs], every
    allocated node is one of its cells, and every payload is an [int]. *)
Definition owns (h : heap) (ll : LL) (cs : list cell) : Prop :=
  repr h ll cs ∧ dom h = fp cs ∧ Forall is_int cs.*2.

Definition lifetime_inv (s : lstate) : Prop :=
  match s with
  | Alive h ll => ∃ cs, owns h ll cs
  | Destroyed h => h = ∅
  | Crashed => False
  end.

(** ** Copy operations declared by the compiler *)

(** The implicit copy constructor copies [head], [tail] and [num_items]. *)
Definition Linked_List_copy (other : LL) : LL :=
  mkLL (head other) (tail other) (num_items other).

(** [{ Linked_List copy = list; }] followed by the end of [list]'s scope:
    the copy is destroyed, then the original. *)
Definition copy_then_destroy (h : heap) (ll : LL) : outcome heap :=
  let copy := Linked_List_copy ll in
  h1 ← Linked_List_dtor h copy;
  Linked_List_dtor h1 ll.

(** The implicit copy assignment [self = other] overwrites each member of
    [self] with the member of [other]; the nodes [self] owned are not
    released. *)
Definition Linked_List_assign (self other : LL) : LL :=
  mkLL (head other) (tail other) (num_items other).

(** [{ Linked_List a; Linked_List b; ... a = b; }]: at the end of the
    scope [b] is destroyed, then [a]. *)
Definition assign_then_destroy (h : heap) (a b : LL) : outcome heap :=
  let a' := Linked_List_assign a b in
  h1 ← Linked_List_dtor h b;
  Linked_List_dtor h1 a'.

(** ** Two objects in one heap

    Two [Linked_List] objects [a] and [b] allocate their nodes in the same
    heap; a client calls either of them in any order ([true] names [a],
    [false] names [b]). *)
Definition exec_on (side : bool) (c : list_call) (h : heap) (a b : LL) : outcome (heap * LL * LL) :=
  if side then '(h', a') ← exec_call c h a; Ret (h', a', b)
  else '(h', b') ← exec_call c h b; Ret (h', a, b').

Fixpoint exec_interleaved (calls : list (bool * list_call)) (h : heap) (a b : LL) : outcome (heap * LL * LL) :=
  match calls with
  | [] => Ret (h, a, b)
  | (side, c) :: calls' => '(h', a', b') ← exec_on side c h a b; exec_interleaved calls' h' a' b'
  end.

(** The calls made on one of the objects, in order. *)
Definition calls_of (side : bool) (calls : list (bool * list_call)) : list list_call :=
  snd <$> filter (λ tc, tc.1 = side) calls.

(** ** Lemmas *)

Lemma spec_call_length c xs : length (spec_call c xs) ≤ S (length xs).
Proof.
  destruct c; simpl.
  - lia.
  - unfold ListSpec.push_back. rewrite length_app. simpl. lia.
  - destruct xs; simpl; lia.
  - unfold ListSpec.pop_back. destruct xs as [|x xs _] using rev_ind; [simpl; lia|].
    rewrite removelast_last, length_app. lia.
  - rewrite ListSpec.length_insert_spec. lia.
  - pose proof (ListSpec.length_remove_spec i xs). destruct (ListSpec.remove i xs).2; lia.
Qed.

(** A call with [int] arguments leaves only [int]s in the list. *)
Lemma spec_call_ints c xs : valid_call c → Forall is_int xs → Forall is_int (spec_call c xs).
Proof.
  intros Hv Hxs. destruct c; simpl in *.
  - by constructor.
  - apply Forall_app. by split; [|constructor].
  - destruct xs; [done|]. by apply Forall_cons in Hxs as [].
  - by apply Forall_removelast.
  - unfold ListSpec.insert. destruct Hv. case_decide; apply Forall_app.
    + split; [by apply Forall_take | constructor; [done | by apply Forall_drop]].
    + by split; [|constructor].
  - unfold ListSpec.remove. case_decide; simpl; [|done].
    apply Forall_app. split; [by apply Forall_take | by apply Forall_drop].
Qed.

(** One call implements its contract. *)
Lemma exec_call_spec c h ll cs :
  repr h ll cs → valid_call c → (Z.of_nat (length cs) < SIZE_MAX)%Z →
  refines h cs (exec_call c h ll) (spec_call c cs.*2).
Proof.
  intros Hr Hv Hlt. destruct c; simpl in *.
  - by apply push_front_spec.
  - by apply push_back_spec.
  - by apply pop_front_spec.
  - by apply pop_back_spec.
  - destruct Hv as [[Hi _] _]. by apply insert_spec.
  - destruct Hv as [Hi _].
    destruct (remove_spec i h ll cs Hr Hi) as (h' & ll' & cs' & -> & ? & ? & ?).
    exists h', ll', cs'. done.
Qed.

(** A sequence of calls implements the sequence of contracts. *)
Lemma exec_calls_spec calls h ll cs :
  repr h ll cs → Forall valid_call calls →
  (Z.of_nat (length cs + length calls) < SIZE_MAX)%Z →
  refines h cs (exec_calls calls h ll) (spec_calls calls cs.*2).
Proof.
  revert h ll cs. induction calls as [|c calls IH]; intros h ll cs Hr Hv Hlt; simpl.
  - exists h, ll, cs. split_and!; [done.. | apply heap_frame_refl].
  - apply Forall_cons in Hv as [Hc Hv]. simpl in Hlt.
    destruct (exec_call_spec c h ll cs) as (h1 & ll1 & cs1 & -> & Hr1 & Hs1 & Hf1); [done | done | lia|].
    simpl. destruct (IH h1 ll1 cs1) as (h2 & ll2 & cs2 & -> & Hr2 & Hs2 & Hf2); [done | done | |].
    { pose proof (spec_call_length c cs.*2). rewrite <- Hs1, !length_fmap in *. lia. }
    exists h2, ll2, cs2. split_and!; [done | done | | by eapply heap_frame_trans].
    rewrite Hs2, Hs1. done.
Qed.

(** A heap owned by an object keeps being owned after an operation whose
    frame covers the object's cells. *)
Lemma owns_frame h h' ll' cs cs' :
  dom h = fp cs → repr h' ll' cs' → heap_frame h h' (fp cs) (fp cs') → dom h' = fp cs'.
Proof. intros Hd Hr Hf. eapply heap_frame_owned; [exact Hf | done | apply (lseg_fp_dom _ _ _ _ (proj1 Hr))]. Qed.

Lemma owns_call c h ll cs :
  owns h ll cs → valid_call c → (num_items ll < SIZE_MAX)%Z →
  ∃ h' ll' cs', exec_call c h ll = Ret (h', ll') ∧ owns h' ll' cs'.
Proof.
  intros (Hr & Hd & Hi) Hv Hlt. pose proof Hr as (_ & _ & Hn & _).
  destruct (exec_call_spec c h ll cs) as (h' & ll' & cs' & -> & Hr' & Hs' & Hf'); [done | done | lia|].
  exists h', ll', cs'. split; [done|]. split_and!; [done | by eapply owns_frame |].
  rewrite Hs'. by apply spec_call_ints.
Qed.

(** The destructor of an object that owns the heap empties it. *)
Lemma owns_dtor h ll cs : owns h ll cs → Linked_List_dtor h ll = Ret ∅.
Proof.
  intros (Hr & Hd & _). destruct (dtor_spec h ll cs Hr) as (h' & -> & Hf). f_equal.
  apply dom_empty_iff_L. eapply heap_frame_owned; [exact Hf | done | set_solver].
Qed.

Lemma owns_initial : owns ∅ Linked_List_ctor [].
Proof.
  unfold owns, repr. split_and!; rewrite ?locs_nil, ?fp_nil, ?dom_empty_L; try constructor; try done.
Qed.

(** The invariant holds in every reachable state (rule induction). *)
Lemma reachable_inv s : reachable s → lifetime_inv s.
Proof.
  revert s. unfold reachable. apply (rtc_ind_r lifetime_inv initial).
  - exists []. apply owns_initial.
  - intros s1 s2 _ Hst IH. destruct Hst as [c h ll h' ll' Hv Hlt E|c h ll Hv Hlt E|h ll h' E|h ll E];
      simpl in IH |- *; destruct IH as (cs & Ho).
    + destruct (owns_call c h ll cs Ho Hv Hlt) as (h2 & ll2 & cs2 & E' & Ho').
      rewrite E in E'. injection E' as -> ->. by exists cs2.
    + destruct (owns_call c h ll cs Ho Hv Hlt) as (h2 & ll2 & cs2 & E' & _). congruence.
    + rewrite (owns_dtor _ _ _ Ho) in E. congruence.
    + rewrite (owns_dtor _ _ _ Ho) in E. congruence.
Qed.

Lemma reachable_step s s' : reachable s → lstep s s' → reachable s'.
Proof. intros. by eapply rtc_r. Qed.

(** A node of an owned heap holds one of the payloads. *)
Lemma owns_node_data h ll cs l n : owns h ll cs → h !! l = Some n → data n ∈ cs.*2.
Proof.
  intros (Hr & Hd & _) Hl. pose proof Hr as (Hs & _).
  assert (Hin : l ∈ fp cs) by (rewrite <- Hd; by apply elem_of_dom_2 in Hl).
  apply elem_of_fp in Hin. unfold locs in Hin. apply list_elem_of_fmap in Hin as ([l' x] & -> & Hc).
  simpl in Hl |- *. destruct (lseg_cell _ _ _ _ _ _ Hs Hc) as (nx & Hl'). rewrite Hl in Hl'. simplify_eq.
  simpl. by apply (list_elem_of_fmap_2 snd _ (l', x)).
Qed.

(** Running well-typed calls from an owned state follows the state
    machine. *)
Lemma calls_steps calls h ll cs h' ll' :
  owns h ll cs → Forall valid_call calls → (Z.of_nat (length cs + length calls) < SIZE_MAX)%Z →
  exec_calls calls h ll = Ret (h', ll') → rtc lstep (Alive h ll) (Alive h' ll').
Proof.
  revert h ll cs. induction calls as [|c calls IH]; intros h ll cs Ho Hv Hlt E; simpl in *.
  - simplify_eq. apply rtc_refl.
  - apply Forall_cons in Hv as [Hc Hv]. pose proof Ho as ((_ & _ & Hn & _) & _).
    destruct (owns_call c h ll cs Ho Hc) as (h1 & ll1 & cs1 & E1 & Ho1); [lia|].
    rewrite E1 in E. simpl in E. eapply rtc_l; [by econstructor; [| lia |]|].
    destruct Ho1 as (Hr1 & Hd1 & Hi1). eapply (IH _ _ cs1); [done | done | | done].
    destruct (exec_call_spec c h ll cs) as (h2 & ll2 & cs2 & E2 & Hr2 & Hs2 & _); [apply Ho | done | lia |].
    rewrite E1 in E2. simplify_eq. pose proof Hr1 as (_ & _ & Hn1 & _). pose proof Hr2 as (_ & _ & Hn2 & _).
    pose proof (spec_call_length c cs.*2). rewrite <- Hs2, !length_fmap in *. lia.
Qed.

(** An object whose cells an operation does not own is still represented
    afterwards, and the operation's cells stay apart from it. *)
Lemma exec_call_other c h a csa b csb :
  repr h a csa → repr h b csb → fp csa ## fp csb → valid_call c → (Z.of_nat (length csa) < SIZE_MAX)%Z →
  ∃ h' a' csa', exec_call c h a = Ret (h', a') ∧ repr h' a' csa' ∧ csa'.*2 = spec_call c csa.*2 ∧
    length csa' ≤ S (length csa) ∧ repr h' b csb ∧ fp csa' ## fp csb.
Proof.
  intros Ha Hb Hdis Hc Hlt.
  destruct (exec_call_spec c h a csa) as (h' & a' & csa' & E & Ha' & Hs' & Hf); [done.. |].
  destruct (heap_frame_other _ _ _ _ (fp csb) Hf Hdis (lseg_fp_dom _ _ _ _ (proj1 Hb))) as [Hdis' Heq].
  exists h', a', csa'. split_and!; [done | done | done | | | done].
  - pose proof (spec_call_length c csa.*2). rewrite <- Hs', !length_fmap in *. lia.
  - destruct Hb as (Hs & Hrest). split; [|done]. eapply lseg_frame; [|done].
    intros l Hl. apply Heq. by apply elem_of_fp.
Qed.

Lemma calls_of_cons side side' c calls :
  calls_of side ((side', c) :: calls) = if decide (side' = side) then c :: calls_of side calls else calls_of side calls.
Proof. unfold calls_of. rewrite filter_cons. simpl. by case_decide. Qed.

(** ** Theorems *)

(** C7: any sequence of list calls with well-typed arguments, from a list
    of [n] elements with [n] plus the number of calls below [SIZE_MAX],
    runs without undefined behaviour, keeps the invariant after every
    call, yields the contract's sequence, and changes the heap only on
    the cells it allocated or released. *)
Theorem exec_calls_refines calls h ll cs :
  repr h ll cs → Forall valid_call calls →
  (Z.of_nat (length cs + length calls) < SIZE_MAX)%Z →
  refines h cs (exec_calls calls h ll) (spec_calls calls cs.*2).
Proof. apply exec_calls_spec. Qed.

(** C8: no leak: from an empty list on an empty heap, after any such
    sequence of calls the allocated nodes are exactly the list's cells, and
    the destructor then leaves the heap empty (every node allocated by the
    calls is released exactly once). *)
Theorem calls_then_dtor_no_leak calls :
  Forall valid_call calls → (Z.of_nat (length calls) < SIZE_MAX)%Z →
  ∃ h ll cs h', exec_calls calls ∅ Linked_List_ctor = Ret (h, ll) ∧
    repr h ll cs ∧ cs.*2 = spec_calls calls [] ∧ dom h = fp cs ∧
    Linked_List_dtor h ll = Ret h' ∧ h' = ∅.
Proof.
  intros Hv Hlt.
  destruct (exec_calls_spec calls ∅ Linked_List_ctor [])
    as (h & ll & cs & Hrun & Hr & Hs & Hf); [apply owns_initial | done | simpl; lia|].
  assert (Hdom : dom h = fp cs) by (eapply owns_frame; [by rewrite dom_empty_L, fp_nil | done | done]).
  destruct (dtor_spec h ll cs Hr) as (h' & Hd & Hf').
  exists h, ll, cs, h'. split_and!; [done.. |].
  apply dom_empty_iff_L. eapply heap_frame_owned; [exact Hf' | done | set_solver].
Qed.

(** C9: safety of the object's lifetime: no run from [Linked_List list;]
    through well-typed calls and the destructor reaches undefined
    behaviour, and a destroyed object leaves the heap empty. *)
Theorem reachable_safe s :
  reachable s → s ≠ Crashed ∧ (∀ h, s = Destroyed h → h = ∅).
Proof. intros Hr. pose proof (reachable_inv s Hr) as Hi. split; [by intros ->|]. by intros h ->. Qed.

(** C10: the type invariant of a live object: [num_items] is a [size_t],
    every node on the heap holds an [int], and [head] and [tail] are
    [nullptr] together. *)
Theorem reachable_typed h ll :
  reachable (Alive h ll) →
  is_size (num_items ll) ∧ map_Forall (λ _ n, is_int (data n)) h ∧ (head ll = None ↔ tail ll = None).
Proof.
  intros Hr. destruct (reachable_inv _ Hr) as (cs & Ho). pose proof Ho as (Hre & _ & Hi).
  pose proof Hre as (_ & _ & Hn & Hb & _). split_and!.
  - rewrite Hn. unfold is_size. lia.
  - intros l n Hl. eapply Forall_forall; [exact Hi | by eapply owns_node_data].
  - by rewrite (repr_head_None _ _ _ Hre), (repr_tail_None _ _ _ Hre).
Qed.

(** C12: two objects in one heap do not interfere: for any interleaving
    of well-typed calls on [a] and [b] whose nodes are disjoint, every
    call runs without undefined behaviour, both objects keep their
    invariant with disjoint nodes, and each holds what its own calls
    prescribe, as if it were alone. *)
Theorem interleaved_refines calls h a b csa csb :
  repr h a csa → repr h b csb → fp csa ## fp csb → Forall (λ tc, valid_call tc.2) calls →
  (Z.of_nat (length csa + length csb + length calls) < SIZE_MAX)%Z →
  ∃ h' a' b' csa' csb', exec_interleaved calls h a b = Ret (h', a', b') ∧
    repr h' a' csa' ∧ repr h' b' csb' ∧ fp csa' ## fp csb' ∧
    csa'.*2 = spec_calls (calls_of true calls) csa.*2 ∧ csb'.*2 = spec_calls (calls_of false calls) csb.*2.
Proof.
  revert h a b csa csb. induction calls as [|[side c] calls IH]; intros h a b csa csb Ha Hb Hdis Hv Hlt.
  - by exists h, a, b, csa, csb.
  - apply Forall_cons in Hv as [Hc Hv]. simpl in Hlt, Hc. rewrite !calls_of_cons. simpl.
    destruct side; simpl.
    + destruct (exec_call_other c h a csa b csb) as (h1 & a1 & csa1 & -> & Ha1 & Hs1 & Hl1 & Hb1 & Hdis1);
        [done.. | lia |]. simpl.
      destruct (IH h1 a1 b csa1 csb) as (h2 & a2 & b2 & csa2 & csb2 & E & Ha2 & Hb2 & Hdis2 & Hsa & Hsb);
        [done.. | lia |].
      exists h2, a2, b2, csa2, csb2. by rewrite Hsa, Hs1.
    + destruct (exec_call_other c h b csb a csa) as (h1 & b1 & csb1 & -> & Hb1 & Hs1 & Hl1 & Ha1 & Hdis1);
        [done | done | by symmetry | done | lia |]. simpl.
      destruct (IH h1 a b1 csa csb1) as (h2 & a2 & b2 & csa2 & csb2 & E & Ha2 & Hb2 & Hdis2 & Hsa & Hsb);
        [done | done | by symmetry | done | lia |].
      exists h2, a2, b2, csa2, csb2. by rewrite Hsb, Hs1.
Qed.

(** C11: progress and release: a live object takes each well-typed call
    [c] without undefined behaviour (while it holds fewer than [SIZE_MAX]
    nodes): [exec_call c] itself returns, and the object it leaves is
    again a reachable live object.  Its destructor always runs and leaves
    the heap empty. *)
Theorem reachable_live h ll :
  reachable (Alive h ll) →
  (∀ c, valid_call c → (num_items ll < SIZE_MAX)%Z →
     ∃ h' ll', exec_call c h ll = Ret (h', ll') ∧ reachable (Alive h' ll')) ∧
  Linked_List_dtor h ll = Ret ∅.
Proof.
  intros Hr. destruct (reachable_inv _ Hr) as (cs & Ho). split; [|by eapply owns_dtor].
  intros c Hv Hlt. destruct (owns_call c h ll cs Ho Hv Hlt) as (h' & ll' & cs' & E & _).
  exists h', ll'. split; [done|]. eapply reachable_step; [exact Hr|]. by econstructor.
Qed.

(** C26: copying a non-empty [Linked_List] and letting both objects go
    out of scope is undefined behaviour: the copy's destructor releases
    the nodes, and the original's destructor then reads a released node
    (and would delete it a second time). *)
Theorem copy_double_free h ll cs :
  repr h ll cs → cs ≠ [] → copy_then_destroy h ll = Undef.
Proof.
  intros Hr Hne. unfold copy_then_destroy.
  assert (Hc : Linked_List_copy ll = ll) by (by destruct ll).
  rewrite Hc. destruct (dtor_spec h ll cs Hr) as (h1 & Hd & _ & Hfree & _).
  rewrite Hd. simpl.
  destruct cs as [|[l x] cs]; [done|]. destruct Hr as ((Hhd & _) & _).
  unfold Linked_List_dtor. rewrite Hhd. destruct (loop_fuel h1); [done|]. simpl.
  unfold load. rewrite (Hfree l); [done | by rewrite fp_cons; set_solver | set_solver].
Qed.

(** C27: the implicit copy assignment leaks: after [a = b] with [b] empty,
    both destructors run without releasing anything, so every node [a]
    owned stays allocated and unreachable. *)
Theorem assign_leaks h a b cs :
  repr h a cs → repr h b [] → assign_then_destroy h a b = Ret h ∧ fp cs ⊆ dom h.
Proof.
  intros Ha Hb. split; [|apply (lseg_fp_dom _ _ _ _ (proj1 Ha))].
  apply repr_head_None in Hb. assert (Hhb : head b = None) by naive_solver.
  assert (Hnil : ∀ f h0, destroy_loop f h0 None = Ret h0) by (by intros [|f] h0).
  unfold assign_then_destroy, Linked_List_dtor, Linked_List_assign. simpl.
  rewrite Hhb, Hnil, bind_Ret. apply Hnil.
Qed.

(** ** Concrete runs *)

Definition demo_calls : list list_call := [PushBack 10; PushBack 20; PushBack 30; Insert 1 99; Remove 1; PopFront].

(** The heap and the object after [demo_calls]: the nodes of 20 and 30. *)
Definition demo_after_heap : heap :=
  {[2%positive := mkNode 20 (Some 3%positive); 3%positive := mkNode 30 None]}.
Definition demo_after_ll : LL := mkLL (Some 2%positive) (Some 3%positive) 2.

Lemma demo_calls_run : exec_calls demo_calls ∅ Linked_List_ctor = Ret (demo_after_heap, demo_after_ll).
Proof. vm_compute. reflexivity. Qed.

Lemma demo_reachable : reachable (Alive demo_after_heap demo_after_ll).
Proof.
  apply (calls_steps demo_calls _ _ []); [apply owns_initial | decide_concrete | decide_concrete |].
  apply demo_calls_run.
Qed.

Lemma exec_calls_refines_witness :
  refines ∅ [] (exec_calls demo_calls ∅ Linked_List_ctor) [20; 30]%Z.
Proof.
  exact (exec_calls_refines demo_calls ∅ Linked_List_ctor []
           ltac:(decide_concrete) ltac:(decide_concrete) ltac:(decide_concrete)).
Defined.

Lemma calls_then_dtor_no_leak_witness :
  ∃ h ll cs h', exec_calls demo_calls ∅ Linked_List_ctor = Ret (h, ll) ∧
    repr h ll cs ∧ cs.*2 = [20; 30]%Z ∧ dom h = fp cs ∧
    Linked_List_dtor h ll = Ret h' ∧ h' = ∅.
Proof. exact (calls_then_dtor_no_leak demo_calls ltac:(decide_concrete) ltac:(decide_concrete)). Defined.

Lemma reachable_safe_witness :
  Alive demo_after_heap demo_after_ll ≠ Crashed ∧
  (∀ h, Alive demo_after_heap demo_after_ll = Destroyed h → h = ∅).
Proof. exact (reachable_safe _ demo_reachable). Defined.

Lemma reachable_typed_witness :
  is_size 2 ∧ map_Forall (λ _ n, is_int (data n)) demo_after_heap ∧
  (Some 2%positive = None ↔ Some 3%positive = None).
Proof. exact (reachable_typed _ _ demo_reachable). Defined.

(** After the demo calls, [push_back(7)] goes through and the object
    can be destroyed. *)
Lemma reachable_live_witness :
  (∃ h' ll', exec_call (PushBack 7) demo_after_heap demo_after_ll = Ret (h', ll') ∧ reachable (Alive h' ll')) ∧
  Linked_List_dtor demo_after_heap demo_after_ll = Ret ∅.
Proof.
  destruct (reachable_live _ _ demo_reachable) as [Hc Hd]. split; [|exact Hd].
  apply Hc; decide_concrete.
Defined.

Definition demo_interleaving : list (bool * list_call) := [(true, PushBack 40); (false, PushBack 1); (true, PopFront)].

(** [a] is [10 -> 20 -> 30], [b] a new empty list in the same heap. *)
Lemma interleaved_refines_witness :
  ∃ h' a' b' csa' csb', exec_interleaved demo_interleaving demo_heap demo_ll Linked_List_ctor = Ret (h', a', b') ∧
    repr h' a' csa' ∧ repr h' b' csb' ∧ fp csa' ## fp csb' ∧ csa'.*2 = [20; 30; 40]%Z ∧ csb'.*2 = [1%Z].
Proof.
  exact (interleaved_refines demo_interleaving demo_heap demo_ll Linked_List_ctor demo_cells []
           ltac:(decide_concrete) ltac:(decide_concrete) ltac:(decide_concrete) ltac:(decide_concrete)
           ltac:(decide_concrete)).
Defined.

Lemma copy_double_free_witness : copy_then_destroy demo_heap demo_ll = Undef.
Proof. exact (copy_double_free demo_heap demo_ll demo_cells ltac:(decide_concrete) ltac:(discriminate)). Defined.

Lemma assign_leaks_witness :
  assign_then_destroy demo_heap demo_ll Linked_List_ctor = Ret demo_heap ∧ fp demo_cells ⊆ dom demo_heap.
Proof. exact (assign_leaks demo_heap demo_ll Linked_List_ctor demo_cells ltac:(decide_concrete) ltac:(decide_concrete)). Defined.

End Lifetime.
