(* ===== verification/ListProps.v ===== *)
(** Reference traversals for [Linked_List] (LinkedList.v): in every
    state that a sequence of calls can reach (Lifetime.v), the cached
    fields [num_items] and [tail] agree with what a walk along the chain
    computes, so the O(1) [size()] and [back()] are equivalent to the
    O(n) reference walks. *)

From S2P Require Import Prelude ListSpec Memory LinkedList Lifetime.

Module ListProps.
Import Linked_List Lifetime.

(** ** Reference traversals

    What the cached fields stand for, computed by walking [next] from
    [head] (each walk has one iteration per node and the fuel bound of
    the code's own loops). *)

(** The number of nodes reached from [p]. *)
Fixpoint count_nodes (fuel : nat) (h : heap) (p : ptr) : outcome nat :=
  match p with
  | None => Ret 0
  | Some _ =>
      match fuel with
      | O => Undef
      | S f => n ← load h p; k ← count_nodes f h (next n); Ret (S k)
      end
  end.

(** The last node reached from [p] ([nullptr] for an empty chain). *)
Fixpoint last_node (fuel : nat) (h : heap) (p : ptr) : outcome ptr :=
  match p with
  | None => Ret None
  | Some _ =>
      match fuel with
      | O => Undef
      | S f =>
          n ← load h p;
          match next n with None => Ret p | Some _ => last_node f h (next n) end
      end
  end.

(** What [back()] would return by walking to the last node instead of
    reading [tail]. *)
Definition back_walk (fuel : nat) (h : heap) (ll : LL) : outcome Z :=
  p ← last_node fuel h (head ll);
  match p with None => Throw "List is empty" | Some _ => n ← load h p; Ret (data n) end.

Section Props.
Context `{!Allocator}.

(** ** Lemmas on the walks *)

Lemma count_nodes_spec fuel h p cs :
  lseg h p None cs → length cs ≤ fuel → count_nodes fuel h p = Ret (length cs).
Proof.
  revert p fuel. induction cs as [|[l x] cs IH]; intros p fuel Hs Hf; simpl in Hs.
  - subst. by destruct fuel.
  - destruct Hs as (-> & nx & Hl & Hs). destruct fuel as [|fuel]; [simpl in Hf; lia|]. simpl.
    rewrite (load_Some _ _ _ Hl), bind_Ret. simpl. rewrite (IH nx fuel Hs) by (simpl in Hf; lia). done.
Qed.

Lemma last_node_spec fuel h p cs :
  lseg h p None cs → length cs ≤ fuel → last_node fuel h p = Ret (last_ptr cs).
Proof.
  revert p fuel. induction cs as [|[l x] cs IH]; intros p fuel Hs Hf; simpl in Hs.
  - subst. by destruct fuel.
  - destruct Hs as (-> & nx & Hl & Hs). destruct fuel as [|fuel]; [simpl in Hf; lia|]. simpl.
    rewrite (load_Some _ _ _ Hl), bind_Ret. simpl. rewrite last_ptr_cons.
    destruct cs as [|[l' x'] cs'].
    + simpl in Hs. by subst.
    + destruct Hs as (-> & Hs'). rewrite (IH (Some l') fuel) by (simpl in *; naive_solver lia).
      destruct (last_ptr ((l', x') :: cs')) eqn:E; [done|]. by apply last_ptr_None in E.
Qed.

(** ** Equivalence with the reference walks *)

(** C14: in every state a sequence of calls reaches from a new list,
    [size()], which returns the counter [num_items] that the operations
    maintain, equals the number of nodes a traversal from [head] counts:
    the O(1) [size()] is equivalent to the O(n) count. *)
Theorem size_equiv h ll :
  reachable (Alive h ll) → count_nodes (loop_fuel h) h (head ll) = Ret (Z.to_nat (size ll)).
Proof.
  intros Hr. destruct (reachable_inv _ Hr) as (cs & (Hs & _ & Hn & _ & Hnd) & _).
  unfold size. rewrite Hn, Nat2Z.id.
  apply count_nodes_spec; [done | by eapply lseg_length_le].
Qed.

(** C15: in every reachable state, the cached [tail] pointer that the
    operations maintain is the last node reached by walking [next] from
    [head] ([nullptr] for an empty list), so [back()], which reads
    through [tail], returns what a walk to the last node would read, and
    throws exactly when that walk finds no node. *)
Theorem tail_equiv h ll :
  reachable (Alive h ll) →
  last_node (loop_fuel h) h (head ll) = Ret (tail ll) ∧ back h ll = back_walk (loop_fuel h) h ll.
Proof.
  intros Hr. destruct (reachable_inv _ Hr) as (cs & (Hs & Ht & _ & _ & Hnd) & _).
  assert (E : last_node (loop_fuel h) h (head ll) = Ret (tail ll)).
  { rewrite Ht. apply last_node_spec; [done | by eapply lseg_length_le]. }
  split; [done|]. unfold back_walk. rewrite E, bind_Ret. done.
Qed.

End Props.

(** ** Concrete runs on the list [20 -> 30] that the calls of
    [demo_calls] build (Lifetime.v) *)

Lemma size_equiv_witness :
  count_nodes (loop_fuel demo_after_heap) demo_after_heap (head demo_after_ll) = Ret 2.
Proof. exact (size_equiv demo_after_heap demo_after_ll demo_reachable). Defined.

Lemma tail_equiv_witness :
  last_node (loop_fuel demo_after_heap) demo_after_heap (head demo_after_ll) = Ret (Some 3%positive) ∧
  back demo_after_heap demo_after_ll = back_walk (loop_fuel demo_after_heap) demo_after_heap demo_after_ll.
Proof. exact (tail_equiv demo_after_heap demo_after_ll demo_reachable). Defined.

End ListProps.
