(* ===== verification/Stack.v ===== *)
(** [mainStack] (main.h lines 77-99, main.cpp lines 175-220): a stack over a
    [std::vector<int>] whose last element is the top.  [pop] on an empty
    stack prints a warning and changes nothing, [top] on an empty stack
    throws, [average] sums in [int] (signed overflow is undefined
    behaviour) and divides as a [double], and [display] prints the
    elements bottom to top. *)

From S2P Require Import Prelude.

(** The abstract contract of the stack (specification section 4.2): a
    sequence with the top first.  [pop] of an empty stack changes
    nothing, [top] of an empty stack has no value; [display] and
    [average] are what the two members compute from the sequence. *)
Module StackSpec.

Definition push (x : Z) (xs : list Z) : list Z := x :: xs.

Definition pop (xs : list Z) : list Z := tail xs.

Definition top (xs : list Z) : option Z := head xs.

Definition empty (xs : list Z) : bool := bool_decide (xs = []).

(** The mathematical sum. *)
Definition zsum (xs : list Z) : Z := foldr Z.add 0%Z xs.

(** Every partial sum [init + x1 + ... + xk] is an [int]. *)
Fixpoint partial_sums_int (init : Z) (xs : list Z) : Prop :=
  match xs with
  | [] => True
  | x :: xs' => is_int (init + x) ∧ partial_sums_int (init + x) xs'
  end.

#[global] Instance partial_sums_int_dec init xs : Decision (partial_sums_int init xs).
Proof. revert init. induction xs; simpl; apply _. Defined.

(** The elements separated by the connector. *)
Fixpoint separated (xs : list Z) : ostream :=
  match xs with
  | [] => []
  | [x] => [OInt x]
  | x :: xs' => OInt x :: OStr " -> " :: separated xs'
  end.

(** What a display of the stack shows: the elements bottom to top. *)
Definition display (xs : list Z) : ostream :=
  [OStr "Stack (bottom to top): "] ++ separated (reverse xs) ++ [OStr " -> NULL"; OEndl].

(** The mean of the elements, [0.0] for an empty stack.  The contract
    keeps the [int] accumulation of the elements bottom to top: a
    partial sum outside [int] is undefined behaviour. *)
Definition average (xs : list Z) : outcome float :=
  if decide (xs = []) then Ret 0%float
  else if decide (partial_sums_int 0 (reverse xs)) then
    Ret (PrimFloat.div (double_of_Z (zsum xs)) (double_of_Z (Z.of_nat (length xs))))
  else Undef.

Lemma zsum_reverse xs : zsum (reverse xs) = zsum xs.
Proof.
  unfold zsum. induction xs as [|x xs IH]; [done|].
  rewrite reverse_cons, foldr_app. simpl. rewrite <- IH. clear IH.
  generalize (reverse xs). intros ys. induction ys as [|y ys IHy]; simpl; lia.
Qed.

End StackSpec.

Module mainStack.

(** The object: [std::vector<int> stack;] (capacity is not observable). *)
Record mainStack := mkStack { stack : list Z }.

(** The empty stack of a default-constructed object. *)
Definition mainStack_ctor : mainStack := mkStack [].

(** [push]: [stack.push_back(value)]. *)
Definition push (value : Z) (s : mainStack) : mainStack := mkStack (stack s ++ [value]).

(** [pop]: [stack.pop_back()] unless empty; otherwise the warning on
    [cout] and no change. *)
Definition pop (s : mainStack) : mainStack * ostream :=
  if decide (stack s ≠ []) then (mkStack (removelast (stack s)), [])
  else (s, [OStr ("Stack is empty. Cannot pop." +:+ newline)]).

(** [empty]: [stack.empty()]. *)
Definition empty (s : mainStack) : bool := bool_decide (stack s = []).

(** [top]: [stack.back()] unless empty; otherwise a [runtime_error]. *)
Definition top (s : mainStack) : outcome Z :=
  if decide (stack s ≠ []) then of_option (last (stack s))
  else Throw "Stack is empty. No top element.".

(** [std::accumulate(begin, end, 0)] on [int]: [init = init + *first]
    for each element, each addition an [int] addition. *)
Fixpoint accumulate (init : Z) (xs : list Z) : outcome Z :=
  match xs with
  | [] => Ret init
  | x :: xs' => init' ← int_add init x; accumulate init' xs'
  end.

(** [average]: [0.0] on an empty stack; otherwise the [int] sum converted
    to [double] and divided by the size (a [size_t] converted to
    [double]). *)
Definition average (s : mainStack) : outcome float :=
  if decide (stack s = []) then Ret 0%float
  else
    sum ← accumulate 0 (stack s);
    Ret (PrimFloat.div (double_of_Z sum) (double_of_Z (Z.of_nat (length (stack s))))).

(** The [for] loop of [display] from index [i], [k] iterations left: the
    element, then the connector unless it is the last index. *)
Fixpoint display_loop (v : list Z) (i k : nat) : ostream :=
  match k with
  | O => []
  | S k' =>
      match v !! i with
      | Some x =>
          OInt x :: (if decide (i < length v - 1) then [OStr " -> "] else []) ++
          display_loop v (S i) k'
      | None => []
      end
  end.

(** [display]: the header, the loop over all indices, the terminator. *)
Definition display (s : mainStack) : ostream :=
  [OStr "Stack (bottom to top): "] ++ display_loop (stack s) 0 (length (stack s)) ++
  [OStr " -> NULL"; OEndl].

(** The vector holds the abstract stack bottom first. *)
Definition models (s : mainStack) (xs : list Z) : Prop := stack s = reverse xs.

#[global] Instance models_dec s xs : Decision (models s xs).
Proof. unfold models. apply _. Defined.

(** ** Proofs *)

Lemma mkStack_stack s : mkStack (stack s) = s.
Proof. by destruct s. Qed.

(** C32: LIFO: after [push v], [top] returns [v] and [pop] gives back the
    previous stack without printing anything. *)
Theorem push_top_pop v s : top (push v s) = Ret v ∧ pop (push v s) = (s, []).
Proof.
  unfold top, pop, push. simpl. rewrite !decide_True by (by destruct (stack s)).
  rewrite last_snoc, removelast_last, mkStack_stack. done.
Qed.

(** The [int] accumulation, loop by loop. *)
Lemma accumulate_correct init xs :
  accumulate init xs = if decide (StackSpec.partial_sums_int init xs) then Ret (init + StackSpec.zsum xs)%Z else Undef.
Proof.
  revert init. induction xs as [|x xs IH]; intros init; simpl.
  - by rewrite Z.add_0_r.
  - unfold int_add. destruct (decide (is_int (init + x))) as [Hx|Hx]; simpl.
    + rewrite IH. destruct (decide (StackSpec.partial_sums_int (init + x) xs)).
      * rewrite decide_True by done. f_equal. lia.
      * rewrite decide_False; [done | tauto].
    + rewrite decide_False; [done | tauto].
Qed.

(** C33: [std::accumulate] over [int] returns the exact sum when every
    partial sum is an [int], and is undefined (signed overflow) otherwise. *)
Theorem accumulate_spec init xs :
  accumulate init xs = if decide (StackSpec.partial_sums_int init xs) then Ret (init + StackSpec.zsum xs)%Z else Undef.
Proof. apply accumulate_correct. Qed.

(** [average], by cases on emptiness and overflow. *)
Lemma average_correct s :
  average s =
    if decide (stack s = []) then Ret 0%float
    else if decide (StackSpec.partial_sums_int 0 (stack s)) then
      Ret (PrimFloat.div (double_of_Z (StackSpec.zsum (stack s))) (double_of_Z (Z.of_nat (length (stack s)))))
    else Undef.
Proof.
  unfold average. destruct (decide (stack s = [])); [done|].
  rewrite accumulate_correct. by destruct (decide (StackSpec.partial_sums_int 0 (stack s))).
Qed.

(** C34: [average] is [0.0] on an empty stack; otherwise, when the [int]
    accumulation does not overflow, it is the [double] quotient of the
    exact sum by the size, and it is undefined when it overflows. *)
Theorem average_spec s :
  average s =
    if decide (stack s = []) then Ret 0%float
    else if decide (StackSpec.partial_sums_int 0 (stack s)) then
      Ret (PrimFloat.div (double_of_Z (StackSpec.zsum (stack s))) (double_of_Z (Z.of_nat (length (stack s)))))
    else Undef.
Proof. apply average_correct. Qed.

(** The loop of [display] from index [i] prints the rest of the vector
    separated by the connector. *)
Lemma display_loop_spec v k i : k + i = length v → display_loop v i k = StackSpec.separated (drop i v).
Proof.
  revert i. induction k as [|k IH]; intros i Hk; simpl.
  - by rewrite drop_ge by lia.
  - destruct (lookup_lt_is_Some_2 v i) as [x Hx]; [lia|]. rewrite Hx.
    rewrite (drop_S _ _ _ Hx), IH by lia.
    destruct (drop (S i) v) as [|y ys] eqn:E.
    + rewrite decide_False; [done|]. apply (f_equal length) in E. rewrite length_drop in E. simpl in E. lia.
    + rewrite decide_True; [done|]. apply (f_equal length) in E. rewrite length_drop in E. simpl in E. lia.
Qed.

(** C35: [display] prints the header, the elements bottom to top separated
    by [" -> "], then [" -> NULL"] and a newline. *)
Theorem display_spec s :
  display s = [OStr "Stack (bottom to top): "] ++ StackSpec.separated (stack s) ++ [OStr " -> NULL"; OEndl].
Proof. unfold display. by rewrite display_loop_spec by lia. Qed.

(** [display] and [average] are functions of the abstract stack. *)
Lemma stack_observers_spec s xs :
  models s xs → display s = StackSpec.display xs ∧ average s = StackSpec.average xs.
Proof.
  unfold models, StackSpec.display, StackSpec.average. intros Hs. split.
  - unfold display. by rewrite display_loop_spec, drop_0, Hs by lia.
  - rewrite average_correct, Hs, length_reverse, StackSpec.zsum_reverse.
    destruct xs as [|x xs]; [done|].
    destruct (decide (reverse (x :: xs) = [])) as [E|]; [|by destruct (decide (x :: xs = []))].
    rewrite reverse_cons in E. by destruct (reverse xs).
Qed.

(** The simulation of [StackSpec] by [mainStack], operation by operation. *)
Lemma stack_refines_spec v s xs :
  models s xs →
  models (push v s) (StackSpec.push v xs) ∧
  models (pop s).1 (StackSpec.pop xs) ∧
  (pop s).2 = (if StackSpec.empty xs then [OStr ("Stack is empty. Cannot pop." +:+ newline)] else []) ∧
  top s = match StackSpec.top xs with Some x => Ret x | None => Throw "Stack is empty. No top element." end ∧
  empty s = StackSpec.empty xs.
Proof.
  unfold models, StackSpec.push, StackSpec.pop, StackSpec.top, StackSpec.empty. intros Hs.
  unfold push, pop, top, empty. simpl. rewrite Hs, reverse_cons. split; [done|].
  destruct xs as [|x xs]; simpl.
  - rewrite Hs. repeat split; reflexivity.
  - rewrite reverse_cons. assert (Hne : reverse xs ++ [x] ≠ []) by (by destruct (reverse xs)).
    rewrite !decide_True by done. rewrite removelast_last, last_snoc, !bool_decide_false by done.
    split_and!; done.
Qed.

(** C31: [mainStack] implements the abstract LIFO stack, member by
    member: when the vector is the reverse of the model [xs], [push v]
    models [v :: xs], [pop] models the tail of [xs] and prints the warning
    exactly when [xs] is empty, [top] returns the head of [xs] or throws,
    [empty] agrees, and [display] and [average] are the ones of the model
    ([display] shows [xs] bottom to top, [average] accumulates it bottom
    to top in [int]). *)
Theorem stack_refines v s xs :
  models s xs →
  models (push v s) (StackSpec.push v xs) ∧
  models (pop s).1 (StackSpec.pop xs) ∧
  (pop s).2 = (if StackSpec.empty xs then [OStr ("Stack is empty. Cannot pop." +:+ newline)] else []) ∧
  top s = match StackSpec.top xs with Some x => Ret x | None => Throw "Stack is empty. No top element." end ∧
  empty s = StackSpec.empty xs ∧
  display s = StackSpec.display xs ∧ average s = StackSpec.average xs.
Proof.
  intros Hs. destruct (stack_refines_spec v s xs Hs) as (? & ? & ? & ? & ?).
  destruct (stack_observers_spec s xs Hs). by split_and!.
Qed.

(** An empty stack prints the connector with nothing before it. *)
Example display_empty :
  display mainStack_ctor = [OStr "Stack (bottom to top): "; OStr " -> NULL"; OEndl].
Proof. reflexivity. Qed.

Lemma stack_refines_witness :
  models (push 30 (mkStack [10; 20]%Z)) [30; 20; 10]%Z ∧ models (pop (mkStack [10; 20]%Z)).1 [10%Z] ∧
  (pop (mkStack [10; 20]%Z)).2 = [] ∧ top (mkStack [10; 20]%Z) = Ret 20%Z ∧ empty (mkStack [10; 20]%Z) = false ∧
  display (mkStack [10; 20]%Z) = [OStr "Stack (bottom to top): "; OInt 10; OStr " -> "; OInt 20; OStr " -> NULL"; OEndl] ∧
  average (mkStack [10; 20]%Z) = Ret 15%float.
Proof. exact (stack_refines 30 (mkStack [10; 20]%Z) [20; 10]%Z eq_refl). Defined.

End mainStack.
