(* ===== verification/Interface.v ===== *)
(** The public interfaces of the two classes as type classes, with the
    contract each promises to its client [main].  [ListInterface] is the
    public section of [class Linked_List] (main.h lines 23-68) and
    [StackInterface] the public section of [class mainStack] (main.h
    lines 81-98); [ListContract] and [StackContract] state what a client
    may rely on, relative to the abstract models of ListSpec.v and
    [StackSpec].  The instances for the classes of main.cpp discharge the
    contracts with the theorems of LinkedList.v and Stack.v, and Demo.v
    proves each part of [main] against its class's contract alone. *)

From S2P Require Import Prelude ListSpec Memory LinkedList Stack.

(** ** The interface of [Linked_List]

    Over the storage [W] the objects live in (the heap) and the state [O]
    of one object; the constructor builds a new object, every other
    member takes the storage and the object. *)
Class ListInterface (W O : Type) := {
  li_ctor : O;
  li_dtor : W → O → outcome W;
  li_push_front : Z → W → O → outcome (W * O);
  li_push_back : Z → W → O → outcome (W * O);
  li_pop_front : W → O → outcome (W * O);
  li_pop_back : W → O → outcome (W * O);
  li_front : W → O → outcome Z;
  li_back : W → O → outcome Z;
  li_empty : W → O → bool;
  li_insert : Z → Z → W → O → outcome (W * O);
  li_remove : Z → W → O → outcome (W * O * bool);
  li_find : Z → W → O → outcome Z;
  li_print_list : W → O → outcome ostream;
  li_size : W → O → Z
}.

(** What a client may rely on: [rep w o xs] says that the object [o] in
    the storage [w] holds the sequence [xs]. *)
Class ListContract (W O : Type) `{!ListInterface W O} (rep : W → O → list Z → Prop) := {
  ctor_rep w : rep w li_ctor [];
  dtor_ok w o xs : rep w o xs → ∃ w', li_dtor w o = Ret w';
  push_front_ok v w o xs :
    rep w o xs → (Z.of_nat (length xs) < SIZE_MAX)%Z →
    ∃ w' o', li_push_front v w o = Ret (w', o') ∧ rep w' o' (ListSpec.push_front v xs);
  push_back_ok v w o xs :
    rep w o xs → (Z.of_nat (length xs) < SIZE_MAX)%Z →
    ∃ w' o', li_push_back v w o = Ret (w', o') ∧ rep w' o' (ListSpec.push_back v xs);
  pop_front_ok w o xs :
    rep w o xs → ∃ w' o', li_pop_front w o = Ret (w', o') ∧ rep w' o' (ListSpec.pop_front xs);
  pop_back_ok w o xs :
    rep w o xs → ∃ w' o', li_pop_back w o = Ret (w', o') ∧ rep w' o' (ListSpec.pop_back xs);
  front_ok w o xs : rep w o xs → li_front w o = ListSpec.front xs;
  back_ok w o xs : rep w o xs → li_back w o = ListSpec.back xs;
  empty_ok w o xs : rep w o xs → li_empty w o = bool_decide (xs = []);
  insert_ok i v w o xs :
    rep w o xs → (0 ≤ i)%Z → (Z.of_nat (length xs) < SIZE_MAX)%Z →
    ∃ w' o', li_insert i v w o = Ret (w', o') ∧ rep w' o' (ListSpec.insert i v xs);
  remove_ok i w o xs :
    rep w o xs → (0 ≤ i)%Z →
    ∃ w' o', li_remove i w o = Ret (w', o', (ListSpec.remove i xs).2) ∧ rep w' o' (ListSpec.remove i xs).1;
  find_ok v w o xs : rep w o xs → li_find v w o = Ret (Z.of_nat (ListSpec.index_of v xs));
  print_list_ok w o xs : rep w o xs → li_print_list w o = Ret (ListSpec.render xs);
  size_ok w o xs : rep w o xs → li_size w o = Z.of_nat (length xs)
}.

(** ** The interface of [mainStack] *)
Class StackInterface (S : Type) := {
  si_ctor : S;
  si_push : Z → S → S;
  si_pop : S → S * ostream;
  si_empty : S → bool;
  si_top : S → outcome Z;
  si_average : S → outcome float;
  si_display : S → ostream
}.

(** The LIFO contract relative to [StackSpec], with the diagnostic of
    [pop], the exception of [top] on an empty stack, and what [display]
    and [average] compute from the abstract stack. *)
Class StackContract (S : Type) `{!StackInterface S} (rep : S → list Z → Prop) := {
  sctor_rep : rep si_ctor [];
  spush_ok v s xs : rep s xs → rep (si_push v s) (StackSpec.push v xs);
  spop_ok s xs :
    rep s xs → rep (si_pop s).1 (StackSpec.pop xs) ∧
    (si_pop s).2 = (if StackSpec.empty xs then [OStr ("Stack is empty. Cannot pop." +:+ newline)] else []);
  stop_ok s xs :
    rep s xs →
    si_top s = match StackSpec.top xs with Some x => Ret x | None => Throw "Stack is empty. No top element." end;
  sempty_ok s xs : rep s xs → si_empty s = StackSpec.empty xs;
  sdisplay_ok s xs : rep s xs → si_display s = StackSpec.display xs;
  saverage_ok s xs : rep s xs → si_average s = StackSpec.average xs
}.

(** ** The implementations of main.cpp *)

Module Implementations.
Import Linked_List.

Section LinkedListImpl.
Context `{!Allocator}.

#[global] Instance Linked_List_interface : ListInterface heap LL := {|
  li_ctor := Linked_List_ctor;
  li_dtor := Linked_List_dtor;
  li_push_front := push_front;
  li_push_back := push_back;
  li_pop_front := pop_front;
  li_pop_back := pop_back;
  li_front := front;
  li_back := back;
  li_empty := λ _ ll, empty ll;
  li_insert := insert;
  li_remove := remove;
  li_find := find;
  li_print_list := print_list;
  li_size := λ _ ll, size ll
|}.

(** The object's chain spells [xs]. *)
Definition Linked_List_rep (h : heap) (ll : LL) (xs : list Z) : Prop := ∃ cs, repr h ll cs ∧ cs.*2 = xs.

Lemma refines_rep h cs r xs' :
  refines h cs r xs' → ∃ h' ll', r = Ret (h', ll') ∧ Linked_List_rep h' ll' xs'.
Proof. intros (h' & ll' & cs' & -> & Hr & Hs & _). eexists _, _. split; [done|]. by exists cs'. Qed.

(** Every operation meets the contract, for any allocator whose [new]
    returns a fresh location. *)
#[global] Instance Linked_List_contract : ListContract heap LL Linked_List_rep.
Proof.
  split; simpl.
  - intros h. exists []. split; [|done]. unfold repr. split_and!; rewrite ?locs_nil; try constructor; try done.
  - intros h ll xs (cs & Hr & _). destruct (dtor_spec _ _ _ Hr) as (h' & -> & _). eauto.
  - intros v h ll xs (cs & Hr & <-) Hlt. apply (refines_rep h cs), push_front_spec; [done | by rewrite length_fmap in Hlt].
  - intros v h ll xs (cs & Hr & <-) Hlt. apply (refines_rep h cs), push_back_spec; [done | by rewrite length_fmap in Hlt].
  - intros h ll xs (cs & Hr & <-). by apply (refines_rep h cs), pop_front_spec.
  - intros h ll xs (cs & Hr & <-). by apply (refines_rep h cs), pop_back_spec.
  - intros h ll xs (cs & Hr & <-). by apply front_spec.
  - intros h ll xs (cs & Hr & <-). by apply back_spec.
  - intros h ll xs (cs & Hr & <-). by apply (empty_refines h).
  - intros i v h ll xs (cs & Hr & <-) Hi Hlt. apply (refines_rep h cs), insert_spec; [done | done | by rewrite length_fmap in Hlt].
  - intros i h ll xs (cs & Hr & <-) Hi.
    destruct (remove_spec i h ll cs Hr Hi) as (h' & ll' & cs' & -> & Hr' & Hs' & _). eexists _, _. split; [done|]. by exists cs'.
  - intros v h ll xs (cs & Hr & <-). by apply find_spec.
  - intros h ll xs (cs & Hr & <-). by apply print_list_spec.
  - intros h ll xs (cs & Hr & <-). pose proof Hr as (_ & _ & Hn & _). unfold size. by rewrite length_fmap.
Qed.

End LinkedListImpl.

#[global] Instance mainStack_interface : StackInterface mainStack.mainStack := {|
  si_ctor := mainStack.mainStack_ctor;
  si_push := mainStack.push;
  si_pop := mainStack.pop;
  si_empty := mainStack.empty;
  si_top := mainStack.top;
  si_average := mainStack.average;
  si_display := mainStack.display
|}.

#[global] Instance mainStack_contract : StackContract mainStack.mainStack mainStack.models.
Proof.
  split; simpl; [done|..].
  - intros v s xs Hs. by destruct (mainStack.stack_refines_spec v s xs Hs).
  - intros s xs Hs. by destruct (mainStack.stack_refines_spec 0 s xs Hs) as (_ & ? & ? & _).
  - intros s xs Hs. by destruct (mainStack.stack_refines_spec 0 s xs Hs) as (_ & _ & _ & ? & _).
  - intros s xs Hs. by destruct (mainStack.stack_refines_spec 0 s xs Hs) as (_ & _ & _ & _ & ?).
  - intros s xs Hs. by destruct (mainStack.stack_observers_spec s xs Hs).
  - intros s xs Hs. by destruct (mainStack.stack_observers_spec s xs Hs).
Qed.

End Implementations.
