(* ===== verification/Demo.v ===== *)
(** [main] (main.cpp lines 227-301), the one client of both classes: the
    program's state as a [World] (the heap, the two local objects and
    [cout]), a small state and exception monad [M] over it, [main] call by
    call against the interfaces of Interface.v ([run_main], and [main]
    with the classes of main.cpp), each of its two parts proved against
    the contract of the class it uses, and their composition: the whole
    of [main] and its transcript. *)

From S2P Require Import Prelude ListSpec Memory LinkedList Stack Interface.

Module Demo.

Section Main.
(** [main] calls [list] and [s] only through the public interfaces of
    [Linked_List] and [mainStack]; [W] is the storage the list's objects
    live in. *)
Context {W O S : Type} `{!ListInterface W O} `{!StackInterface S}.

(** ** The world of [main] and its monad *)

Record World := mkWorld {
  w_heap : W;
  w_list : O;
  w_stack : S;
  w_out : ostream
}.

(** A statement of [main]: it reads and changes the world, and may throw
    or have undefined behaviour. *)
Definition M (A : Type) : Type := World → outcome (World * A).

#[global] Instance M_ret : MRet M := λ A a w, Ret (w, a).
#[global] Instance M_bind : MBind M := λ A B f m w,
  match m w with Ret (w', a) => f a w' | Throw e => Throw e | Undef => Undef end.

(** [cout << ...]. *)
Definition emit (items : ostream) : M unit :=
  λ w, Ret (mkWorld (w_heap w) (w_list w) (w_stack w) (w_out w ++ items), tt).

(** A call [list.f(...)] that changes the list. *)
Definition on_list (f : W → O → outcome (W * O)) : M unit :=
  λ w, '(h, l) ← f (w_heap w) (w_list w); Ret (mkWorld h l (w_stack w) (w_out w), tt).

(** A call [list.f(...)] that changes the list and returns a result. *)
Definition on_list_ret {A} (f : W → O → outcome (W * O * A)) : M A :=
  λ w, '(h, l, a) ← f (w_heap w) (w_list w); Ret (mkWorld h l (w_stack w) (w_out w), a).

(** A [const] call on [list]. *)
Definition ask_list {A} (f : W → O → outcome A) : M A :=
  λ w, a ← f (w_heap w) (w_list w); Ret (w, a).

(** A call [s.f(...)] that changes the stack and may write to [cout]. *)
Definition on_stack (f : S → S * ostream) : M unit :=
  λ w, let '(s, o) := f (w_stack w) in Ret (mkWorld (w_heap w) (w_list w) s (w_out w ++ o), tt).

(** A [const] call on [s]. *)
Definition ask_stack {A} (f : S → outcome A) : M A :=
  λ w, a ← f (w_stack w); Ret (w, a).

Definition yes_no (b : bool) : string := if b then "Yes" else "No".

(** ** [main] *)

(** Lines 229-269: the list part.  [cout << "..." << list.f() << endl]
    writes the text before the call (C++17 sequences the left operand of
    [<<] first). *)
Definition main_list_part : M unit :=
  on_list (li_push_front 10) ;;
  emit [OStr "After push_front(10): "] ;;
  ask_list li_print_list ≫= emit ;;
  on_list (li_push_back 20) ;;
  on_list (li_push_back 30) ;;
  emit [OStr "After push_back(20) and push_back(30): "] ;;
  ask_list li_print_list ≫= emit ;;
  emit [OStr "Front: "] ;;
  x ← ask_list li_front; emit [OInt x; OEndl] ;;
  emit [OStr "Back: "] ;;
  y ← ask_list li_back; emit [OInt y; OEndl] ;;
  emit [OStr "Is list empty? "] ;;
  e ← ask_list (λ h l, Ret (li_empty h l)); emit [OStr (yes_no e); OEndl] ;;
  on_list (li_insert 1 99) ;;
  emit [OStr "After insert(1, 99): "] ;;
  ask_list li_print_list ≫= emit ;;
  on_list_ret (li_remove 1) ≫= (λ removed : bool,
  emit [OStr "Remove at index 1: "; OStr (if removed then "True" else "False"); OEndl]) ;;
  ask_list li_print_list ≫= emit ;;
  index ← ask_list (li_find 20);
  emit [OStr "Index of 20: "; OSize index; OEndl] ;;
  on_list li_pop_front ;;
  emit [OStr "After pop_front(): "] ;;
  ask_list li_print_list ≫= emit ;;
  on_list li_pop_back ;;
  emit [OStr "After pop_back(): "] ;;
  ask_list li_print_list ≫= emit.

(** Lines 273-300: the stack part. *)
Definition main_stack_part : M unit :=
  emit [OEndl] ;;
  emit [OStr "Vector-Based Stack"] ;;
  emit [OEndl; OEndl] ;;
  emit [OStr ("1) Stack object created." +:+ newline)] ;;
  emit [OStr "2) Is stack empty? "] ;;
  e ← ask_stack (λ s, Ret (si_empty s)); emit [OStr (yes_no e); OEndl] ;;
  on_stack (λ s, (si_push 10 s, [])) ;;
  on_stack (λ s, (si_push 20 s, [])) ;;
  on_stack (λ s, (si_push 30 s, [])) ;;
  emit [OStr ("3) After pushing 10, 20, 30:" +:+ newline)] ;;
  ask_stack (λ s, Ret (si_display s)) ≫= emit ;;
  on_stack si_pop ;;
  emit [OStr ("4) After one pop:" +:+ newline)] ;;
  ask_stack (λ s, Ret (si_display s)) ≫= emit ;;
  emit [OStr "5) Top of the stack: "] ;;
  t ← ask_stack si_top; emit [OInt t; OEndl] ;;
  emit [OStr "6) Average of stack elements: "] ;;
  a ← ask_stack si_average; emit [ODouble a; OEndl].

(** The whole of [main]: both objects are constructed empty in the
    storage [w0], the body runs, and at the closing brace [s] and then
    [list] are destroyed ([mainStack] has no destructor of its own).  The
    result is the transcript and the storage at exit. *)
Definition run_main (w0 : W) : outcome (ostream * W) :=
  '(w, _) ← (main_list_part ;; main_stack_part) (mkWorld w0 li_ctor si_ctor []);
  h ← li_dtor (w_heap w) (w_list w);
  Ret (w_out w, h).

End Main.

(** [main] with the classes of main.cpp, starting on an empty heap. *)
Definition main : outcome (ostream * heap) :=
  run_main (O := Linked_List.LL) (S := mainStack.mainStack) (∅ : heap).

(** What the list part of [main] writes, as the contract prescribes. *)
Definition list_transcript : ostream :=
  [OStr "After push_front(10): "] ++ ListSpec.render [10%Z] ++
  [OStr "After push_back(20) and push_back(30): "] ++ ListSpec.render [10; 20; 30]%Z ++
  [OStr "Front: "; OInt 10; OEndl; OStr "Back: "; OInt 30; OEndl;
   OStr "Is list empty? "; OStr "No"; OEndl] ++
  [OStr "After insert(1, 99): "] ++ ListSpec.render [10; 99; 20; 30]%Z ++
  [OStr "Remove at index 1: "; OStr "True"; OEndl] ++ ListSpec.render [10; 20; 30]%Z ++
  [OStr "Index of 20: "; OSize 1; OEndl] ++
  [OStr "After pop_front(): "] ++ ListSpec.render [20; 30]%Z ++
  [OStr "After pop_back(): "] ++ ListSpec.render [20%Z].

(** What the stack part of [main] writes, as the contract prescribes. *)
Definition stack_transcript : ostream :=
  [OEndl; OStr "Vector-Based Stack"; OEndl; OEndl;
   OStr ("1) Stack object created." +:+ newline);
   OStr "2) Is stack empty? "; OStr "Yes"; OEndl;
   OStr ("3) After pushing 10, 20, 30:" +:+ newline)] ++ StackSpec.display [30; 20; 10]%Z ++
  [OStr ("4) After one pop:" +:+ newline)] ++ StackSpec.display [20; 10]%Z ++
  [OStr "5) Top of the stack: "; OInt 20; OEndl;
   OStr "6) Average of stack elements: "; ODouble 15; OEndl].

(** ** Proofs *)

Section Client.
Context {W O S : Type} `{!ListInterface W O} `{!StackInterface S}.

(** How the statements of [main] run. *)
Lemma bind_emit {A} items (k : unit → @M W O S A) (w : @World W O S) :
  (emit items ≫= k) w = k tt (mkWorld (w_heap w) (w_list w) (w_stack w) (w_out w ++ items)).
Proof. done. Qed.

Lemma bind_on_list {A} f (k : unit → @M W O S A) (w : @World W O S) h' o' :
  f (w_heap w) (w_list w) = Ret (h', o') → (on_list f ≫= k) w = k tt (mkWorld h' o' (w_stack w) (w_out w)).
Proof. intros E. unfold mbind, M_bind, on_list. by rewrite E. Qed.

Lemma bind_on_list_ret {A B} f (k : B → @M W O S A) (w : @World W O S) h' o' b :
  f (w_heap w) (w_list w) = Ret (h', o', b) → (on_list_ret f ≫= k) w = k b (mkWorld h' o' (w_stack w) (w_out w)).
Proof. intros E. unfold mbind, M_bind, on_list_ret. by rewrite E. Qed.

Lemma bind_ask_list {A B} f (k : B → @M W O S A) (w : @World W O S) b :
  f (w_heap w) (w_list w) = Ret b → (ask_list f ≫= k) w = k b w.
Proof. intros E. unfold mbind, M_bind, ask_list. by rewrite E. Qed.

Lemma bind_on_stack {A} f (k : unit → @M W O S A) (w : @World W O S) :
  (on_stack f ≫= k) w = k tt (mkWorld (w_heap w) (w_list w) (f (w_stack w)).1 (w_out w ++ (f (w_stack w)).2)).
Proof. unfold mbind, M_bind, on_stack. by destruct (f (w_stack w)). Qed.

Lemma bind_ask_stack {A B} f (k : B → @M W O S A) (w : @World W O S) b :
  f (w_stack w) = Ret b → (ask_stack f ≫= k) w = k b w.
Proof. intros E. unfold mbind, M_bind, ask_stack. by rewrite E. Qed.

Lemma bind_assoc {A B C} (m : @M W O S A) (f : A → @M W O S B) (g : B → @M W O S C) (w : @World W O S) :
  ((m ≫= f) ≫= g) w = (m ≫= (λ x, f x ≫= g)) w.
Proof. unfold mbind, M_bind. by destruct (m w) as [[w' a]| |]. Qed.

End Client.

(** One statement of [main]: a list mutator whose run is a hypothesis
    [E], a stack mutator, or an observer answered by the contracts. *)
Ltac main_step :=
  cbv beta; cbn [w_heap w_list w_stack w_out];
  lazymatch goal with
  | |- context [ ((?m ≫= ?f) ≫= ?g) ?w0 ] => rewrite (bind_assoc m f g w0)
  | |- context [ (emit ?i ≫= ?k) ?w0 ] => rewrite (bind_emit i k w0)
  | |- context [ (on_list ?f ≫= ?k) ?w0 ] =>
      match goal with E : f _ _ = Ret _ |- _ => rewrite (bind_on_list f k w0 _ _ E) end
  | |- context [ (on_list_ret ?f ≫= ?k) ?w0 ] =>
      match goal with E : f _ _ = Ret _ |- _ => rewrite (bind_on_list_ret f k w0 _ _ _ E) end
  | |- context [ (ask_list ?f ≫= ?k) ?w0 ] =>
      erewrite (bind_ask_list f k w0);
      [| first [ erewrite print_list_ok by eassumption | erewrite front_ok by eassumption
               | erewrite back_ok by eassumption | erewrite find_ok by eassumption
               | erewrite empty_ok by eassumption ]; reflexivity ]
  | |- context [ (on_stack ?f ≫= ?k) ?w0 ] => rewrite (bind_on_stack f k w0); cbn [fst snd]
  | |- context [ (ask_stack ?f ≫= ?k) ?w0 ] =>
      erewrite (bind_ask_stack f k w0);
      [| first [ erewrite sdisplay_ok by eassumption | erewrite stop_ok by eassumption
               | erewrite saverage_ok by eassumption | erewrite sempty_ok by eassumption ]; reflexivity ]
  end.

Section Contract.
Context {W O S : Type} `{!ListInterface W O} `{!StackInterface S}.
Context (rep : W → O → list Z → Prop) `{!ListContract W O rep}.

(** The run of the list part, call by call, from the contract's laws. *)
Lemma main_list_part_run (w : W) (st : S) (out : ostream) :
  ∃ w' o', main_list_part (mkWorld w li_ctor st out) = Ret (mkWorld w' o' st (out ++ list_transcript), tt) ∧
    rep w' o' [20%Z].
Proof.
  pose proof (ctor_rep w) as R0.
  destruct (push_front_ok 10 _ _ _ R0) as (w1 & o1 & E1 & R1); [simpl; unfold SIZE_MAX; lia|].
  destruct (push_back_ok 20 _ _ _ R1) as (w2 & o2 & E2 & R2); [simpl; unfold SIZE_MAX; lia|].
  destruct (push_back_ok 30 _ _ _ R2) as (w3 & o3 & E3 & R3); [simpl; unfold SIZE_MAX; lia|].
  destruct (insert_ok 1 99 _ _ _ R3) as (w4 & o4 & E4 & R4); [lia | simpl; unfold SIZE_MAX; lia|].
  destruct (remove_ok 1 _ _ _ R4) as (w5 & o5 & E5 & R5); [lia|].
  destruct (pop_front_ok _ _ _ R5) as (w6 & o6 & E6 & R6).
  destruct (pop_back_ok _ _ _ R6) as (w7 & o7 & E7 & R7).
  exists w7, o7. split; [|exact R7].
  unfold main_list_part. repeat main_step.
  unfold emit, list_transcript. simpl. rewrite <- !app_assoc. reflexivity.
Qed.

(** C28: [main]'s list part relies on [Linked_List]'s contract alone: with
    any implementation of the interface that meets [ListContract], it
    runs from a freshly constructed list without an exception or undefined
    behaviour, writes [list_transcript], and leaves a list holding [20]. *)
Theorem main_list_part_contract (w : W) (st : S) (out : ostream) :
  ∃ w' o', main_list_part (mkWorld w li_ctor st out) = Ret (mkWorld w' o' st (out ++ list_transcript), tt) ∧
    rep w' o' [20%Z].
Proof. apply main_list_part_run. Qed.

End Contract.

Section StackContract.
Context {W O S : Type} `{!ListInterface W O} `{!StackInterface S}.
Context (srep : S → list Z → Prop) `{!StackContract S srep}.

(** The run of the stack part, call by call, from the contract's laws. *)
Lemma main_stack_part_run (w : W) (o : O) (out : ostream) :
  ∃ s', main_stack_part (mkWorld w o si_ctor out) = Ret (mkWorld w o s' (out ++ stack_transcript), tt) ∧
    srep s' [20; 10]%Z.
Proof.
  pose proof sctor_rep as R0.
  pose proof (spush_ok 10 _ _ R0) as R1. pose proof (spush_ok 20 _ _ R1) as R2.
  pose proof (spush_ok 30 _ _ R2) as R3. destruct (spop_ok _ _ R3) as [R4 E4].
  exists (si_pop (si_push 30 (si_push 20 (si_push 10 si_ctor)))).1. split; [|exact R4].
  unfold main_stack_part. repeat main_step.
  rewrite E4. unfold emit, stack_transcript. simpl. rewrite <- !app_assoc. reflexivity.
Qed.

(** C29: [main]'s stack part relies on [mainStack]'s contract alone: with
    any implementation of the interface that meets [StackContract], it
    runs from a freshly constructed stack without an exception or
    undefined behaviour, writes [stack_transcript] (the warning of [pop]
    is not printed, [top] does not throw, the average is 15), and leaves
    the stack [20] on [10]; the list is not touched. *)
Theorem main_stack_part_contract (w : W) (o : O) (out : ostream) :
  ∃ s', main_stack_part (mkWorld w o si_ctor out) = Ret (mkWorld w o s' (out ++ stack_transcript), tt) ∧
    srep s' [20; 10]%Z.
Proof. apply main_stack_part_run. Qed.

End StackContract.

Section Whole.
Context {W O S : Type} `{!ListInterface W O} `{!StackInterface S}.
Context (rep : W → O → list Z → Prop) `{!ListContract W O rep}.
Context (srep : S → list Z → Prop) `{!StackContract S srep}.

(** C30: the two parts compose through [main]'s world: with any
    implementations meeting [ListContract] and [StackContract], the body
    of [main] runs from the freshly constructed objects to its closing
    brace without an exception or undefined behaviour, writes
    [list_transcript ++ stack_transcript], and leaves the list holding
    [20] and the stack [20] on [10]; the destructor of [list] then
    returns, so that the whole of [main] ([run_main]) ends normally with
    exactly that transcript. *)
Theorem main_contract (w : W) :
  ∃ w' o' s' w'',
    (main_list_part ;; main_stack_part) (mkWorld w li_ctor si_ctor []) =
      Ret (mkWorld w' o' s' (list_transcript ++ stack_transcript), tt) ∧
    rep w' o' [20%Z] ∧ srep s' [20; 10]%Z ∧ li_dtor w' o' = Ret w'' ∧
    run_main w = Ret (list_transcript ++ stack_transcript, w'').
Proof.
  destruct (main_list_part_run rep w si_ctor []) as (w' & o' & E1 & R1).
  destruct (main_stack_part_run srep w' o' list_transcript) as (s' & E2 & R2).
  destruct (dtor_ok _ _ _ R1) as (w'' & E3).
  assert (E : (main_list_part ;; main_stack_part) (mkWorld w li_ctor si_ctor []) =
                Ret (mkWorld w' o' s' (list_transcript ++ stack_transcript), tt)).
  { unfold mbind at 1, M_bind. rewrite E1. exact E2. }
  exists w', o', s', w''. split_and!; [done.. |].
  unfold run_main. rewrite E, bind_Ret. simpl. by rewrite E3, bind_Ret.
Qed.

End Whole.

(** The contract theorem for the classes of main.cpp, on an empty heap. *)
Lemma main_list_part_contract_witness :
  ∃ h' ll', main_list_part (mkWorld (∅ : heap) (li_ctor : Linked_List.LL) mainStack.mainStack_ctor []) =
    Ret (mkWorld h' ll' mainStack.mainStack_ctor ([] ++ list_transcript), tt) ∧
    Implementations.Linked_List_rep h' ll' [20%Z].
Proof. exact (main_list_part_contract Implementations.Linked_List_rep ∅ mainStack.mainStack_ctor []). Defined.

(** The contract theorem for the classes of main.cpp. *)
Lemma main_stack_part_contract_witness :
  ∃ s', main_stack_part (mkWorld (∅ : heap) (li_ctor : Linked_List.LL) (si_ctor : mainStack.mainStack) []) =
    Ret (mkWorld ∅ li_ctor s' ([] ++ stack_transcript), tt) ∧ mainStack.models s' [20; 10]%Z.
Proof. exact (main_stack_part_contract mainStack.models ∅ li_ctor []). Defined.

(** Both contracts, for the classes of main.cpp on an empty heap: the
    program [main] itself. *)
Lemma main_contract_witness :
  ∃ h' ll' s' h'',
    (main_list_part ;; main_stack_part) (mkWorld (∅ : heap) (li_ctor : Linked_List.LL) (si_ctor : mainStack.mainStack) []) =
      Ret (mkWorld h' ll' s' (list_transcript ++ stack_transcript), tt) ∧
    Implementations.Linked_List_rep h' ll' [20%Z] ∧ mainStack.models s' [20; 10]%Z ∧ li_dtor h' ll' = Ret h'' ∧
    main = Ret (list_transcript ++ stack_transcript, h'').
Proof. exact (main_contract Implementations.Linked_List_rep mainStack.models ∅). Defined.

End Demo.
